(** * The [scale] command of the s8s plugin (melctl_client_plugins/s8s/s8s.py)

    A shallow embedding of [Scale]: the token grammar [regex_scalespecs],
    the argument check [reprocess_args], and [target], which expands the
    per-partition scale specifications into one provisioning request per
    node and posts them one after the other. *)

From stdpp Require Import gmap strings list fin_maps sorting.
From Stdlib Require Import ZArith.
From Stdlib Require Import Ascii.

Local Open Scope string_scope.
Local Open Scope Z_scope.

(** ** Python values and exceptions *)

(** The exceptions the command can raise. [sys.exit(n)] raises
    [SystemExit n]. *)
Inductive exn : Type :=
  | TypeError
  | ValueError
  | AttributeError
  | IndexError
  | KeyError
  | ConnectionError
  | HTTPError (status_code : Z)
  | JSONDecodeError
  | SystemExit (code : Z).

Inductive result (A : Type) : Type :=
  | Ok (a : A)
  | Raise (e : exn).
Arguments Ok {A} a.
Arguments Raise {A} e.

#[global] Instance result_ret : MRet result := @Ok.
#[global] Instance result_bind : MBind result := fun A B k m =>
  match m with
  | Ok a => k a
  | Raise e => Raise e
  end.

(** A [for] loop over a list whose body updates the loop-carried state and
    may raise. *)
Fixpoint for_each {A S} (xs : list A) (body : A → S → result S) (s : S)
  : result S :=
  match xs with
  | [] => Ok s
  | x :: xs' => s' ← body x s; for_each xs' body s'
  end.

(** [range(n)]: empty when [n <= 0]. *)
Definition range (n : Z) : list Z := Z.of_nat <$> seq 0 (Z.to_nat n).

(** ** Digit strings *)

Definition is_digit (c : ascii) : bool :=
  ((48 <=? nat_of_ascii c) && (nat_of_ascii c <=? 57))%nat.

Definition digit_value (c : ascii) : Z := Z.of_nat (nat_of_ascii c) - 48.

(** The longest prefix of ASCII digits, and what follows it: how the greedy
    [[0-9]+] consumes its input. *)
Fixpoint span_digits (s : string) : string * string :=
  match s with
  | String c r =>
      if is_digit c
      then let '(d, rest) := span_digits r in (String c d, rest)
      else (EmptyString, s)
  | EmptyString => (EmptyString, EmptyString)
  end.

Fixpoint int_digits (acc : Z) (s : string) : result Z :=
  match s with
  | EmptyString => Ok acc
  | String c r =>
      if is_digit c then int_digits (10 * acc + digit_value c) r
      else Raise ValueError
  end.

(** The number of digits [int] converts at most, at the interpreter's
    default setting ([sys.get_int_max_str_digits()]); leading zeros
    count. *)
Definition int_max_str_digits : Z := 4300.

(** [int(s)] on the strings a [[0-9]+] group can hold: a non-empty run of
    ASCII digits, read in base ten, [ValueError] when the run is longer
    than [int_max_str_digits]. Every other string is reported as
    [ValueError]; the signs, blanks and underscores [int] also accepts
    never reach it from [regex_scalespecs]. *)
Definition py_int (s : string) : result Z :=
  match s with
  | EmptyString => Raise ValueError
  | _ =>
      if int_max_str_digits <? Z.of_nat (String.length s)
      then Raise ValueError
      else int_digits 0 s
  end.

(** ** Decoded JSON *)

(** A value as [json] decodes it; a dictionary keeps its items in order,
    a string is the sequence of its characters. *)
#[warnings="-register-all"]
Inductive json_value : Type :=
  | JNull
  | JBool (b : bool)
  | JInt (n : Z)
  | JFloat (repr : string)
  | JStr (s : string)
  | JList (elements : list json_value)
  | JDict (items : list (string * json_value)).

(** [needle in hay] for two strings. *)
Fixpoint has_prefix (p s : string) : bool :=
  match p, s with
  | EmptyString, _ => true
  | String a p', String b s' => Ascii.eqb a b && has_prefix p' s'
  | String _ _, EmptyString => false
  end.

Fixpoint str_contains (needle hay : string) : bool :=
  has_prefix needle hay ||
  match hay with
  | EmptyString => false
  | String _ hay' => str_contains needle hay'
  end.

(** ** The configuration file and the commands that manage it *)

(** A dictionary with its insertion order, as [json.load] builds it and
    [json.dump] writes it: a list of items whose keys are distinct. *)
Fixpoint dict_get {V} (d : list (string * V)) (k : string) : option V :=
  match d with
  | [] => None
  | (k', v) :: d' => if decide (k' = k) then Some v else dict_get d' k
  end.

(** [d[k] = v]: a key already there keeps its place, a new key goes last. *)
Fixpoint dict_set {V} (d : list (string * V)) (k : string) (v : V)
  : list (string * V) :=
  match d with
  | [] => [(k, v)]
  | (k', v') :: d' =>
      if decide (k' = k) then (k, v) :: d' else (k', v') :: dict_set d' k v
  end.

(** [del d[k]] *)
Definition dict_del {V} (d : list (string * V)) (k : string)
  : list (string * V) :=
  filter (fun kv => kv.1 ≠ k) d.

(** Decoded JSON that is not an object. *)
Inductive non_object : Type :=
  | NList (elements : list json_value)
  | NStr (s : string)
  | NInt (n : Z)
  | NFloat (repr : string)
  | NBool (b : bool)
  | NNull.

(** The name of the Python type a non-object decodes to, as error messages
    print it. *)
Definition type_name (v : non_object) : string :=
  match v with
  | NList _ => "list"
  | NStr _ => "str"
  | NInt _ => "int"
  | NFloat _ => "float"
  | NBool _ => "bool"
  | NNull => "NoneType"
  end.

(** What is at [cfgfile]: nothing; bytes that [json.load] rejects with the
    message [error]; the configurations by name, each a dictionary of
    strings, which is what [set-config] writes; or JSON that decodes to
    something else than an object. An object whose values are not
    dictionaries of strings is not represented. *)
Inductive file : Type :=
  | Missing
  | Corrupt (error : string)
  | Stored (config : list (string * gmap string string))
  | Other (v : non_object).

(** The configurations a command that tolerates a missing file starts
    from; none when the file does not decode. *)
Definition contents (f : file) : option (list (string * gmap string string)) :=
  match f with
  | Missing => Some []
  | Corrupt _ => None
  | Stored config => Some config
  | Other _ => None
  end.

Module SetConfig.

Record Args : Type := {
  name : string;
  region : string;
  pool : string;
  master : string;
  token : string
}.

(** The dictionary stored under the name. *)
Definition entry (args : Args) : gmap string string :=
  {[ "region" := region args; "pool" := pool args;
     "master" := master args; "token" := token args ]}.

(** [config[args.name] = {...}] and the write that follows. *)
Definition store (path : string) (args : Args)
    (config : list (string * gmap string string))
  : result (gmap string string) * file :=
  let config := dict_set config (name args) (entry args) in
  (Ok {[ "file" := path; "name" := name args ]}, Stored config).

(** [target]: load or start empty, set the entry, write everything back;
    [path] is [str(cfgfile)]. Returns the report and the file afterwards.
    A file that does not decode makes [json.load] raise, and a decoded
    value that is not an object refuses the assignment; in both cases the
    file is not written. *)
Definition target (path : string) (args : Args) (f : file)
  : result (gmap string string) * file :=
  match f with
  | Missing => store path args []
  | Corrupt _ => (Raise JSONDecodeError, f)
  | Stored config => store path args config
  | Other _ => (Raise TypeError, f)
  end.

End SetConfig.

Module GetConfig.

Record Args : Type := {
  name : option string;
  token : bool
}.

Inductive printed : Type :=
  | OnStdout (line : string)
  | OnStderr (line : string).

(** [config = {args.name: config[args.name]}] when a name is given; [None]
    stands for the [KeyError]. *)
Definition selected (args : Args) (config : list (string * gmap string string))
  : option (list (string * gmap string string)) :=
  match name args with
  | Some nm => v ← dict_get config nm; Some [(nm, v)]
  | None => Some config
  end.

(** [del v['token']]; [None] stands for the [KeyError]. *)
Definition del_token (kv : string * gmap string string)
  : option (string * gmap string string) :=
  match kv.2 !! "token" with
  | Some _ => Some (kv.1, delete "token" kv.2)
  | None => None
  end.

(** [{**{'name': k}, **v}]: the keys of [v] win. *)
Definition with_name (kv : string * gmap string string)
  : gmap string string :=
  kv.2 ∪ {[ "name" := kv.1 ]}.

Definition str_name (nm : option string) : string :=
  match nm with
  | Some s => s
  | None => "None"
  end.

(** [str(error)] for the exception a decoded non-object meets in the [try]
    block: the [TypeError] of [config[args.name]] when a name is given,
    else the [AttributeError] of [config.items()] (wording of Python
    3.11). *)
Definition not_a_dictionary (args : Args) (v : non_object) : string :=
  match name args with
  | Some _ =>
      match v with
      | NList _ => "list indices must be integers or slices, not str"
      | NStr _ => "string indices must be integers, not 'str'"
      | _ => "'" +:+ type_name v +:+ "' object is not subscriptable"
      end
  | None => "'" +:+ type_name v +:+ "' object has no attribute 'items'"
  end.

(** [target]: what it returns or raises, and what it prints. It never
    writes the file. *)
Definition target (path : string) (args : Args) (f : file)
  : result (list (gmap string string)) * list printed :=
  match f with
  | Missing => (Ok [], [])
  | Corrupt error =>
      (Raise (SystemExit 1),
       [OnStdout ("Failed to load configuration file " +:+ path +:+ ": "
                  +:+ error)])
  | Stored config =>
      match (config ← selected args config;
             config ← (if token args then Some config
                       else mapM del_token config);
             Some (with_name <$> config)) with
      | Some l => (Ok l, [])
      | None =>
          (Raise (SystemExit 1),
           [OnStderr ("Configuration " +:+ str_name (name args)
                      +:+ " is not defined")])
      end
  | Other v =>
      (Raise (SystemExit 1),
       [OnStdout ("Failed to load configuration file " +:+ path +:+ ": "
                  +:+ not_a_dictionary args v)])
  end.

End GetConfig.

Module DelConfig.

(** [args.name in config] on a decoded non-object: membership in a list,
    substring of a string; the other values are not iterable. *)
Definition contains (v : non_object) (name : string) : result bool :=
  match v with
  | NList elements =>
      Ok (existsb (fun x => match x with
                            | JStr s => bool_decide (s = name)
                            | _ => false
                            end) elements)
  | NStr s => Ok (str_contains name s)
  | _ => Raise TypeError
  end.

(** [target] for the configuration [name]. A decoded non-object that
    contains the name refuses the deletion; one that does not is written
    back as it was. *)
Definition target (name : string) (f : file)
  : result (gmap string string) * file :=
  match f with
  | Missing => (Ok ∅, Missing)
  | Corrupt _ => (Raise JSONDecodeError, f)
  | Stored config =>
      let config :=
        if decide (is_Some (dict_get config name))
        then dict_del config name else config in
      (Ok {[ "deleted" := name ]}, Stored config)
  | Other v =>
      match contains v name with
      | Raise e => (Raise e, f)
      | Ok true => (Raise TypeError, f)
      | Ok false => (Ok {[ "deleted" := name ]}, f)
      end
  end.

End DelConfig.

(** ** Python operations on decoded JSON and the rendering of pools *)

Fixpoint characters (s : string) : list json_value :=
  match s with
  | EmptyString => []
  | String c r => JStr (String c EmptyString) :: characters r
  end.

(** [for x in v]: the elements of a list, the keys of a dictionary, the
    characters of a string; nothing else iterates. *)
Definition py_iter (v : json_value) : result (list json_value) :=
  match v with
  | JList elements => Ok elements
  | JDict items => Ok (JStr <$> items.*1)
  | JStr s => Ok (characters s)
  | _ => Raise TypeError
  end.

(** [v[key]] for a string [key]: only a dictionary can be indexed so. *)
Definition py_getitem (v : json_value) (key : string) : result json_value :=
  match v with
  | JDict items =>
      match dict_get items key with
      | Some x => Ok x
      | None => Raise KeyError
      end
  | _ => Raise TypeError
  end.

(** [v[key] = x] for a string [key] *)
Definition py_setitem (v : json_value) (key : string) (x : json_value)
  : result json_value :=
  match v with
  | JDict items => Ok (JDict (dict_set items key x))
  | _ => Raise TypeError
  end.

(** [len(v)] *)
Definition py_len (v : json_value) : result Z :=
  match v with
  | JList elements => Ok (Z.of_nat (length elements))
  | JDict items => Ok (Z.of_nat (length items))
  | JStr s => Ok (Z.of_nat (String.length s))
  | _ => Raise TypeError
  end.

Module Pools.

(** The body of the loop of [render], on one element of [data]; returns
    the element as the two assignments leave it. *)
Definition render_pool (pool : json_value) : result json_value :=
  nodes ← py_getitem pool "nodes";
  count ← py_len nodes;
  pool ← py_setitem pool "nodes_count" (JInt count);
  nodes ← py_getitem pool "nodes";
  nodes ← py_iter nodes;
  names ← mapM (fun n => py_getitem n "name") nodes;
  py_setitem pool "nodes_list" (JList names).

(** [render]: the elements of a list are updated in place and the list is
    returned; the elements any other [data] iterates over are strings,
    which the loop body cannot index. *)
Definition render (data : json_value) : result json_value :=
  pools ← py_iter data;
  pools ← mapM render_pool pools;
  Ok (match data with
      | JList _ => JList pools
      | _ => data
      end).

(** The name of a node descriptor, when it is a dictionary with one. *)
Definition node_name (n : json_value) : option json_value :=
  match n with
  | JDict items => dict_get items "name"
  | _ => None
  end.

(** A pool descriptor: a dictionary whose [nodes] is a list of named
    nodes. *)
Definition pool_of (items : list (string * json_value))
    (nodes names : list json_value) (pool : json_value) : Prop :=
  pool = JDict items ∧ dict_get items "nodes" = Some (JList nodes) ∧
  Forall2 (fun n nm => node_name n = Some nm) nodes names.

End Pools.

(** ** Sample files and answers *)

Definition sample_store : list (string * gmap string string) :=
  [ ("prod", {[ "region" := "lux"; "pool" := "batch";
                "master" := "https://master.example";
                "token" := "secret" ]});
    ("test", {[ "region" := "lab"; "pool" := "small";
                "master" := "https://lab.example"; "token" := "t0" ]}) ].

(** A file edited by hand: the one configuration has lost its token. *)
Definition tokenless_store : list (string * gmap string string) :=
  [ ("old", {[ "region" := "lux"; "pool" := "batch";
               "master" := "https://master.example" ]}) ].

Definition sample_set_args : SetConfig.Args :=
  {| SetConfig.name := "dev"; SetConfig.region := "lux";
     SetConfig.pool := "debug"; SetConfig.master := "https://dev.example";
     SetConfig.token := "t1" |}.

Definition sample_pool_items : list (string * json_value) :=
  [ ("name", JStr "batch");
    ("nodes", JList [ JDict [("name", JStr "n1"); ("cores", JInt 128)];
                      JDict [("name", JStr "n2"); ("cores", JInt 64)] ]) ].

Module Scale.

(** ** Data *)

(** [partitions = ('cpu', 'gpu', 'mem', 'fpga')] *)
Definition partitions : list string := ["cpu"; "gpu"; "mem"; "fpga"].

(** The [groupdict()] of a match of [regex_scalespecs]. *)
Record GroupDict : Type := { nodes : string; time : string }.

(** The [$] of the pattern: the end of the string, or just before a
    newline that ends the string. *)
Definition at_end (s : string) : bool :=
  match s with
  | EmptyString => true
  | String c EmptyString => Nat.eqb (nat_of_ascii c) 10
  | _ => false
  end.

(** [regex_scalespecs.match(arg)] for the pattern
    [^(?P<nodes>[0-9]+):(?P<time>[0-9]+)$]; [None] when there is no match. *)
Definition regex_scalespecs (arg : string) : option GroupDict :=
  let '(n, r1) := span_digits arg in
  match n, r1 with
  | String _ _, String ":" r2 =>
      let '(t, r3) := span_digits r2 in
      match t with
      | String _ _ =>
          if at_end r3 then Some {| nodes := n; time := t |} else None
      | EmptyString => None
      end
  | _, _ => None
  end.

(** [type_scalespecs]: the groups of the match; calling [groupdict] on the
    [None] of a failed match raises, which is turned into [TypeError]. *)
Definition type_scalespecs (arg : string) : result GroupDict :=
  match regex_scalespecs arg with
  | Some d => Ok d
  | None => Raise TypeError
  end.

(** The parsed arguments of the command. *)
Record Namespace : Type := {
  name : option string;
  region : option string;
  pool : option string;
  master : option string;
  token : option string;
  dry_run : bool;
  specs_cpu : list GroupDict;
  specs_gpu : list GroupDict;
  specs_mem : list GroupDict;
  specs_fpga : list GroupDict
}.

(** [getattr(args, f'specs_{part}')] *)
Definition getattr_specs (args : Namespace) (part : string)
  : result (list GroupDict) :=
  if decide (part = "cpu") then Ok (specs_cpu args)
  else if decide (part = "gpu") then Ok (specs_gpu args)
  else if decide (part = "mem") then Ok (specs_mem args)
  else if decide (part = "fpga") then Ok (specs_fpga args)
  else Raise AttributeError.

(** The dictionary posted for one node. *)
Record NodeSpecs : Type := {
  spec_region : option string;
  spec_pool : option string;
  features : gmap string bool;
  seconds : Z;
  spec_master : option string;
  spec_token : option string
}.

(** ** Expansion of the specifications

    The first loop of [target]: [scale_specs] starts empty and gains one
    dictionary per requested node. *)

Definition process_specs (args : Namespace) : result (list NodeSpecs) :=
  for_each partitions (fun part scale_specs =>
    specs ← getattr_specs args part;
    for_each specs (fun part_specs scale_specs =>
      n ← py_int (nodes part_specs);
      for_each (range n) (fun _ scale_specs =>
        t ← py_int (time part_specs);
        Ok (scale_specs ++ [ {|
          spec_region := region args;
          spec_pool := pool args;
          features := {[ part := true ]};
          seconds := t;
          spec_master := master args;
          spec_token := token args
        |} ])%list) scale_specs) scale_specs) [].

(** ** Effects: what the command prints and what it sends *)

(** Observable events, oldest first: [print(node_specs)], a line on
    standard error, and a [session.post] call. *)
Inductive event : Type :=
  | Stdout (node_specs : NodeSpecs)
  | Stderr (line : string)
  | Post (url : string) (json : NodeSpecs) (dry_run_param : bool).

(** A computation that extends the event log and returns or raises. *)
Definition io (A : Type) : Type := list event → result A * list event.

#[global] Instance io_ret : MRet io := fun A a log => (Ok a, log).
#[global] Instance io_bind : MBind io := fun A B k m log =>
  match m log with
  | (Ok a, log') => k a log'
  | (Raise e, log') => (Raise e, log')
  end.

Definition emit (e : event) : io unit := fun log => (Ok tt, (log ++ [e])%list).
Definition raise {A} (e : exn) : io A := fun log => (Raise e, log).
Definition lift {A} (r : result A) : io A := fun log => (r, log).
Definition sys_exit {A} (code : Z) : io A := raise (SystemExit code).

Fixpoint for_each_io {A S} (xs : list A) (body : A → S → io S) (s : S)
  : io S :=
  match xs with
  | [] => mret s
  | x :: xs' => s' ← body x s; for_each_io xs' body s'
  end.

(** The [Post] events of a log: the requests that reached the remote API. *)
Definition posts (log : list event) : list event :=
  List.filter (fun e => match e with Post _ _ _ => true | _ => false end) log.

(** [str(v)] of an optional string. *)
Definition py_str (v : option string) : string :=
  match v with
  | Some s => s
  | None => "None"
  end.

(** Truth value of an optional string: [None] and [''] are false. *)
Definition truthy (v : option string) : bool :=
  match v with
  | Some (String _ _) => true
  | _ => false
  end.

(** A response of the remote API: its status code and its body decoded as
    JSON, when it decodes. *)
Record Response (JSON : Type) : Type := {
  status_code : Z;
  json_body : result JSON
}.
Arguments status_code {JSON} _.
Arguments json_body {JSON} _.

(** [raise_for_status]: client and server error codes raise. *)
Definition raise_for_status {JSON} (req : Response JSON) : io unit :=
  if ((400 <=? status_code req) && (status_code req <? 600))%Z
  then raise (HTTPError (status_code req))
  else mret tt.

Section Command.

(** Response bodies. *)
Variable JSON : Type.
(** [self.url] and [sys.argv]. *)
Variable url : string.
Variable argv : list string.
(** The content of [cfgfile] as [json.load] returns it: configurations by
    name, each a dictionary of strings as [set-config] writes them; an
    exception when the file cannot be opened or decoded. *)
Variable cfgfile : result (gmap string (gmap string string)).
(** [Path(p).parts[-1]] *)
Variable last_part : string → result string.
(** [msg.format(melctl=m, cmd=c)] *)
Variable format : string → string → string → result string.
(** The remote API behind [session.post(url, json=..., params=...)]: its
    answer may depend on what has happened so far; a transport failure
    raises. *)
Variable session_post :
  list event → string → NodeSpecs → bool → result (Response JSON).

Definition argv_get (i : nat) : result string :=
  match argv !! i with
  | Some a => Ok a
  | None => Raise IndexError
  end.

Definition getitem {V} (d : gmap string V) (k : string) : result V :=
  match d !! k with
  | Some v => Ok v
  | None => Raise KeyError
  end.

(** [end_with_usage]: prints the formatted messages and exits with 1. *)
Definition end_with_usage (msgs : list string) : io unit :=
  for_each_io msgs (fun msg _ =>
    melctl ← lift (a0 ← argv_get 0; last_part a0);
    prog ← lift (a0 ← argv_get 0; last_part a0);
    a1 ← lift (argv_get 1);
    a2 ← lift (argv_get 2);
    line ← lift (format msg melctl (prog +:+ " " +:+ a1 +:+ " " +:+ a2));
    emit (Stderr line)) tt;;
  sys_exit 1.

Definition usage_required : list string :=
  [ "usage: {cmd} {{name|--region,--pool,--master,--token}}";
    "{cmd}: error: either {{name}} or {{--region,--pool,--master,--token}} are required" ].

Definition manual_args (args : Namespace) : list (option string) :=
  List.filter truthy [region args; pool args; master args; token args].

(** The [try] block of [reprocess_args]: the named configuration and its
    four entries. *)
Definition load_configuration (args : Namespace) (nm : string)
  : result Namespace :=
  config ← cfgfile;
  cfg ← getitem config nm;
  r ← getitem cfg "region";
  p ← getitem cfg "pool";
  m ← getitem cfg "master";
  t ← getitem cfg "token";
  Ok {| name := name args; region := Some r; pool := Some p;
        master := Some m; token := Some t; dry_run := dry_run args;
        specs_cpu := specs_cpu args; specs_gpu := specs_gpu args;
        specs_mem := specs_mem args; specs_fpga := specs_fpga args |}.

Definition reprocess_args (args : Namespace) : io Namespace :=
  match name args with
  | Some nm =>
      (if (0 <? length (manual_args args))%nat
       then end_with_usage usage_required else mret tt);;
      match load_configuration args nm with
      | Ok args' => mret args'
      | Raise _ =>
          a1 ← lift (argv_get 1);
          end_with_usage
            [ "{cmd}: error: configuration " +:+ nm +:+ " not found or invalid";
              "You may create the configuration with {melctl} " +:+ a1
                +:+ " set-config" ];;
          mret args
      end
  | None =>
      (if (length (manual_args args) <? 4)%nat
       then end_with_usage usage_required else mret tt);;
      mret args
  end.

(** The message printed when no node is requested. *)
Definition specs_required : string :=
  "Scaling specifications required: " +:+
  String.concat ", "
    ((fun p => "[--" +:+ p +:+ " <nodes>:<seconds>]") <$> partitions).

Definition pool_url (args : Namespace) : string :=
  url +:+ "/s8s/regions/" +:+ py_str (region args)
      +:+ "/pools/" +:+ py_str (pool args).

Definition target (args : Namespace) : io (list JSON) :=
  args ← reprocess_args args;
  scale_specs ← lift (process_specs args);
  (if (length scale_specs <? 1)%nat
   then emit (Stderr specs_required);; sys_exit 1
   else mret tt);;
  for_each_io scale_specs (fun node_specs scale_stats =>
    emit (Stdout node_specs);;
    req ← (fun log =>
      (session_post log (pool_url args) node_specs (dry_run args),
       (log ++ [Post (pool_url args) node_specs (dry_run args)])%list));
    raise_for_status req;;
    body ← lift (json_body req);
    mret (scale_stats ++ [body])%list) [].

End Command.

(** ** The partition options of the command line *)

(** An occurrence of one of the four partition options, as the parser
    resolves it: written in full ([--cpu]) or by an abbreviation the
    parser accepts for it. *)
Inductive partition_option : Type := OptCpu | OptGpu | OptMem | OptFpga.

Definition option_partition (o : partition_option) : string :=
  match o with
  | OptCpu => "cpu"
  | OptGpu => "gpu"
  | OptMem => "mem"
  | OptFpga => "fpga"
  end.

(** The [append] action of the option, with [dest=specs_<partition>]. *)
Definition append_specs (args : Namespace) (o : partition_option)
    (d : GroupDict) : Namespace :=
  let upd c g m f :=
    {| name := name args; region := region args; pool := pool args;
       master := master args; token := token args; dry_run := dry_run args;
       specs_cpu := c; specs_gpu := g; specs_mem := m; specs_fpga := f |} in
  match o with
  | OptCpu =>
      upd (specs_cpu args ++ [d])%list (specs_gpu args) (specs_mem args)
        (specs_fpga args)
  | OptGpu =>
      upd (specs_cpu args) (specs_gpu args ++ [d])%list (specs_mem args)
        (specs_fpga args)
  | OptMem =>
      upd (specs_cpu args) (specs_gpu args) (specs_mem args ++ [d])%list
        (specs_fpga args)
  | OptFpga =>
      upd (specs_cpu args) (specs_gpu args) (specs_mem args)
        (specs_fpga args ++ [d])%list
  end.

(** The occurrences of the partition options, in command-line order, each
    converted with [type=Scale.type_scalespecs]; a token the conversion
    rejects makes the parser exit with 2. *)
Definition parse_partition_flags (flags : list (partition_option * string))
  (args : Namespace) : result Namespace :=
  for_each flags (fun '(o, arg) args =>
    match type_scalespecs arg with
    | Ok d => Ok (append_specs args o d)
    | Raise _ => Raise (SystemExit 2)
    end) args.

(** ** Vocabulary of the properties *)

(** The integer a run of digits denotes, whatever its length. *)
Fixpoint decimal_from (acc : Z) (s : string) : Z :=
  match s with
  | EmptyString => acc
  | String c r => decimal_from (10 * acc + digit_value c) r
  end.

Definition decimal_value (s : string) : Z := decimal_from 0 s.

(** The node count and the duration an entry stands for. *)
Definition node_count (d : GroupDict) : Z := decimal_value (nodes d).

Definition duration (d : GroupDict) : Z := decimal_value (time d).

(** A run of digits short enough for [int]. *)
Definition within_limit (s : string) : Prop :=
  Z.of_nat (String.length s) ≤ int_max_str_digits.

(** An entry whose conversions, as far as the loops perform them, are
    within the limit: the node count always, the duration when at least
    one node is asked for. *)
Definition convertible (d : GroupDict) : Prop :=
  within_limit (nodes d) ∧ (node_count d = 0 ∨ within_limit (time d)).

Definition convertibleb (d : GroupDict) : bool :=
  (Z.of_nat (String.length (nodes d)) <=? int_max_str_digits) &&
  ((node_count d =? 0) ||
   (Z.of_nat (String.length (time d)) <=? int_max_str_digits)).

(** An entry the command line can produce: the groups of some token. *)
Definition valid_entry (d : GroupDict) : Prop :=
  ∃ arg, type_scalespecs arg = Ok d.

Definition specs_of (args : Namespace) (part : string) : list GroupDict :=
  match getattr_specs args part with
  | Ok specs => specs
  | Raise _ => []
  end.

(** Every entry of the arguments with its partition: those of [--cpu],
    then those of [--gpu], [--mem] and [--fpga]. *)
Definition entries (args : Namespace) : list (string * GroupDict) :=
  ((pair "cpu" <$> specs_cpu args) ++ (pair "gpu" <$> specs_gpu args) ++
   (pair "mem" <$> specs_mem args) ++ (pair "fpga" <$> specs_fpga args))%list.

Definition no_specs (args : Namespace) : Prop :=
  specs_cpu args = [] ∧ specs_gpu args = [] ∧
  specs_mem args = [] ∧ specs_fpga args = [].

(** The request stamped for one node of partition [part] for [t] seconds. *)
Definition node_request (args : Namespace) (part : string) (t : Z)
  : NodeSpecs :=
  {| spec_region := region args; spec_pool := pool args;
     features := {[ part := true ]}; seconds := t;
     spec_master := master args; spec_token := token args |}.

(** The requests of one entry, one per generation [1..N]. *)
Definition entry_requests (args : Namespace) (part : string) (d : GroupDict)
  : list NodeSpecs :=
  (fun _ => node_request args part (duration d))
    <$> seq 1 (Z.to_nat (node_count d)).

Record ClusterIdentity : Type := {
  id_region : string;
  id_pool : string;
  id_master : string;
  id_token : string
}.

(** [ident] is what the arguments [args] resolve to: the named
    configuration of the file, or else the four options. *)
Definition resolves_to (cfgfile : result (gmap string (gmap string string)))
  (args : Namespace) (ident : ClusterIdentity) : Prop :=
  match name args with
  | Some nm =>
      ∃ config cfg, cfgfile = Ok config ∧ config !! nm = Some cfg ∧
        cfg !! "region" = Some (id_region ident) ∧
        cfg !! "pool" = Some (id_pool ident) ∧
        cfg !! "master" = Some (id_master ident) ∧
        cfg !! "token" = Some (id_token ident)
  | None =>
      region args = Some (id_region ident) ∧
      pool args = Some (id_pool ident) ∧
      master args = Some (id_master ident) ∧
      token args = Some (id_token ident)
  end.


(** The expansion of all entries: the requests of the [cpu] entries, then
    those of the [gpu], [mem] and [fpga] entries. *)
Definition expansion (args : Namespace) : list NodeSpecs :=
  ((d ← specs_cpu args; entry_requests args "cpu" d) ++
   (d ← specs_gpu args; entry_requests args "gpu" d) ++
   (d ← specs_mem args; entry_requests args "mem" d) ++
   (d ← specs_fpga args; entry_requests args "fpga" d))%list.

(** The entries the occurrences of the option for [part] contribute, in
    command-line order. *)
Definition occurrences (part : string)
    (flags : list (partition_option * string)) : list GroupDict :=
  omap (fun '(o, arg) =>
    if decide (option_partition o = part) then regex_scalespecs arg
    else None) flags.

(** The requests the occurrences of the option for [part] ask for: entry
    after entry in command-line order, and for an entry one request per
    generation [1..N]. *)
Definition partition_block (args : Namespace)
    (flags : list (partition_option * string)) (part : string)
  : list NodeSpecs :=
  d ← occurrences part flags;
  (fun generation => node_request args part (duration d))
    <$> seq 1 (Z.to_nat (node_count d)).

(** The blocks of the four partitions in the order cpu, gpu, mem, fpga. *)
Definition ordered_requests (args : Namespace)
    (flags : list (partition_option * string)) : list NodeSpecs :=
  (partition_block args flags "cpu" ++ partition_block args flags "gpu" ++
   partition_block args flags "mem" ++ partition_block args flags "fpga")%list.

(** The fixed enumeration order of the partitions. *)
Definition enumeration_order : list string := ["cpu"; "gpu"; "mem"; "fpga"].

(** Position in the enumeration order of the first partition a request
    marks true (the length of the enumeration when it marks none). *)
Definition request_rank (r : NodeSpecs) : nat :=
  default (length enumeration_order)
    (fst <$> list_find (fun p => features r !! p = Some true)
               enumeration_order).

(** A computation that posts nothing, however it ends. *)
Definition silent {A} (m : io A) : Prop :=
  ∀ log r log', m log = (r, log') → posts log' = posts log.

Fixpoint starts_with (p s : string) : bool :=
  match p, s with
  | EmptyString, _ => true
  | String a p', String b s' => Ascii.eqb a b && starts_with p' s'
  | String _ _, EmptyString => false
  end.

(** [needle in hay] *)
Fixpoint occurs_in (needle hay : string) : bool :=
  starts_with needle hay ||
  match hay with
  | EmptyString => false
  | String _ hay' => occurs_in needle hay'
  end.

Fixpoint all_digits (s : string) : bool :=
  match s with
  | EmptyString => true
  | String c r => is_digit c && all_digits r
  end.

(** The body of the request loop of [target]: print, post, check the
    status, decode, collect. *)
Definition post_node {JSON} (url : string)
    (session_post :
       list event → string → NodeSpecs → bool → result (Response JSON))
    (args : Namespace) (node_specs : NodeSpecs) (scale_stats : list JSON)
  : io (list JSON) :=
  emit (Stdout node_specs);;
  req ← (fun log =>
    (session_post log (pool_url url args) node_specs (dry_run args),
     (log ++ [Post (pool_url url args) node_specs (dry_run args)])%list));
  raise_for_status req;;
  body ← lift (json_body req);
  mret (scale_stats ++ [body])%list.

(** How one exchange with the remote API ends for the loop: the decoded
    body, or the exception that leaves the loop. *)
Definition reply_outcome {JSON} (reply : result (Response JSON))
  : result JSON :=
  match reply with
  | Raise e => Raise e
  | Ok req =>
      if ((400 <=? status_code req) && (status_code req <? 600))%Z
      then Raise (HTTPError (status_code req))
      else json_body req
  end.

(** What the loop has printed and posted once the requests [sent] have
    gone out. *)
Definition dispatched (url : string) (args : Namespace)
    (sent : list NodeSpecs) : list event :=
  r ← sent; [Stdout r; Post (pool_url url args) r (dry_run args)].

(** The [Post] events for the requests [sent], in order. *)
Definition expected_posts (url : string) (args : Namespace)
    (sent : list NodeSpecs) : list event :=
  (fun r => Post (pool_url url args) r (dry_run args)) <$> sent.

(** The keys a stored configuration must hold. *)
Definition identity_keys : list string := ["region"; "pool"; "master"; "token"].

(** A remote API that accepts the first request of a run and answers the
    following ones with 503. *)
Definition one_shot_api (log : list event) (u : string) (json : NodeSpecs)
  (dry : bool) : result (Response unit) :=
  if (length (posts log) <? 1)%nat
  then Ok {| status_code := 200; json_body := Ok tt |}
  else Ok {| status_code := 503; json_body := Ok tt |}.

(** A non-empty run of ASCII digits. *)
Definition digits (s : string) : Prop :=
  s ≠ EmptyString ∧ all_digits s = true.

Definition newline : string := String (ascii_of_nat 10) EmptyString.

(** ** Sample invocations *)

(** Arguments before any partition option is seen, identity given by the
    four options. *)
Definition explicit_args : Namespace :=
  {| name := None; region := Some "lux"; pool := Some "batch";
     master := Some "https://master.example"; token := Some "secret";
     dry_run := false;
     specs_cpu := []; specs_gpu := []; specs_mem := []; specs_fpga := [] |}.

(** [--gpu 1:120 --cpu 2:60 --cpu 1:30] *)
Definition sample_flags : list (partition_option * string) :=
  [(OptGpu, "1:120"); (OptCpu, "2:60"); (OptCpu, "1:30")].

(** A run of [n] digits [1]. *)
Fixpoint ones (n : nat) : string :=
  match n with
  | O => EmptyString
  | S k => String "1"%char (ones k)
  end.




Definition sample_parsed : Namespace :=
  {| name := None; region := Some "lux"; pool := Some "batch";
     master := Some "https://master.example"; token := Some "secret";
     dry_run := false;
     specs_cpu := [ {| nodes := "2"; time := "60" |};
                    {| nodes := "1"; time := "30" |} ];
     specs_gpu := [ {| nodes := "1"; time := "120" |} ];
     specs_mem := []; specs_fpga := [] |}.

(** A stored configuration, and arguments that name it. *)
Definition sample_config : gmap string (gmap string string) :=
  {[ "prod" := {[ "region" := "lux"; "pool" := "batch";
                  "master" := "https://master.example";
                  "token" := "secret" ]} ]}.



(** [--cpu 0:60]: a token of the grammar that asks for no node. *)
Definition zero_args : Namespace :=
  {| name := None; region := Some "lux"; pool := Some "batch";
     master := Some "https://master.example"; token := Some "secret";
     dry_run := false;
     specs_cpu := [ {| nodes := "0"; time := "60" |} ];
     specs_gpu := []; specs_mem := []; specs_fpga := [] |}.

Definition sample_argv : list string := ["/usr/bin/melctl"; "s8s"; "scale"].

(** A remote API that accepts every request. *)
Definition accepting_api (log : list event) (u : string) (json : NodeSpecs)
  (dry : bool) : result (Response unit) :=
  Ok {| status_code := 200; json_body := Ok tt |}.

(** A remote API that accepts every request and answers with the number
    of requests it had received before. *)
Definition counting_api (log : list event) (u : string) (json : NodeSpecs)
  (dry : bool) : result (Response nat) :=
  Ok {| status_code := 201; json_body := Ok (length (posts log)) |}.

(** The requests [sample_parsed] expands to. *)
Definition sample_requests : list NodeSpecs :=
  [ node_request explicit_args "cpu" 60;
    node_request explicit_args "cpu" 60;
    node_request explicit_args "cpu" 30;
    node_request explicit_args "gpu" 120 ].

(** A name together with [--region]. *)
Definition conflicting_args : Namespace :=
  {| name := Some "prod"; region := Some "lux"; pool := None;
     master := None; token := None; dry_run := false;
     specs_cpu := [ {| nodes := "1"; time := "60" |} ];
     specs_gpu := []; specs_mem := []; specs_fpga := [] |}.

(** A name the sample configuration file does not hold. *)
Definition unknown_name_args : Namespace :=
  {| name := Some "staging"; region := None; pool := None;
     master := None; token := None; dry_run := false;
     specs_cpu := [ {| nodes := "1"; time := "60" |} ];
     specs_gpu := []; specs_mem := []; specs_fpga := [] |}.

(** [scale dev --cpu 1:60] *)
Definition dev_args : Namespace :=
  {| name := Some "dev"; region := None; pool := None;
     master := None; token := None; dry_run := false;
     specs_cpu := [ {| nodes := "1"; time := "60" |} ];
     specs_gpu := []; specs_mem := []; specs_fpga := [] |}.

(** ** Digit strings and the token grammar *)

Lemma span_digits_fst (s : string) :
  all_digits (span_digits s).1 = true.
Proof.
  induction s as [|c r IH]; [done|]. simpl.
  destruct (is_digit c) eqn:Hc; [|done].
  destruct (span_digits r) as [d rest]. simpl in *.
  by rewrite Hc.
Qed.

Lemma int_digits_decimal (s : string) (acc : Z) :
  all_digits s = true → int_digits acc s = Ok (decimal_from acc s).
Proof.
  revert acc. induction s as [|c r IH]; intros acc Hd; simpl; [done|].
  simpl in Hd. apply andb_prop in Hd as [Hc Hr]. rewrite Hc. by apply IH.
Qed.

Lemma decimal_from_nonneg (s : string) (acc : Z) :
  all_digits s = true → 0 ≤ acc → 0 ≤ decimal_from acc s.
Proof.
  revert acc. induction s as [|c r IH]; intros acc Hd Hacc; simpl; [done|].
  simpl in Hd. apply andb_prop in Hd as [Hc Hr]. apply IH; [done|].
  unfold is_digit in Hc. apply andb_prop in Hc as [Hlo _].
  apply Nat.leb_le in Hlo. unfold digit_value. lia.
Qed.

(** [int] on a non-empty run of digits: its value, unless the run is too
    long. *)
Lemma py_int_digits (s : string) :
  s ≠ EmptyString → all_digits s = true →
  py_int s = if int_max_str_digits <? Z.of_nat (String.length s)
             then Raise ValueError else Ok (decimal_value s).
Proof.
  intros Hne Hd. destruct s as [|c r]; [done|].
  unfold py_int, decimal_value. by rewrite int_digits_decimal.
Qed.

Example type_scalespecs_token :
  type_scalespecs "3:60" = Ok {| nodes := "3"; time := "60" |}.
Proof. reflexivity. Qed.

Example type_scalespecs_zero_nodes :
  type_scalespecs "0:60" = Ok {| nodes := "0"; time := "60" |}.
Proof. reflexivity. Qed.

Example type_scalespecs_trailing_newline :
  type_scalespecs ("3:60" +:+ String (ascii_of_nat 10) EmptyString)
  = Ok {| nodes := "3"; time := "60" |}.
Proof. reflexivity. Qed.

Example type_scalespecs_rejects :
  type_scalespecs "3:" = Raise TypeError ∧
  type_scalespecs ":60" = Raise TypeError ∧
  type_scalespecs "3:60s" = Raise TypeError ∧
  type_scalespecs " 3:60" = Raise TypeError.
Proof. repeat split. Qed.

Example py_int_leading_zeros : py_int "0042" = Ok 42.
Proof. reflexivity. Qed.

Example py_int_at_the_limit :
  py_int (ones (Z.to_nat 4300)) = Ok (decimal_value (ones (Z.to_nat 4300))) ∧
  py_int (ones (Z.to_nat 4301)) = Raise ValueError ∧
  py_int ("0" +:+ ones (Z.to_nat 4300)) = Raise ValueError.
Proof. repeat split; vm_compute; reflexivity. Qed.

(** A node count of zero leaves the duration unconverted. *)
Example process_specs_zero_nodes_long_duration :
  process_specs
    {| name := None; region := Some "lux"; pool := Some "batch";
       master := Some "m"; token := Some "t"; dry_run := false;
       specs_cpu := [ {| nodes := "0"; time := ones (Z.to_nat 4301) |} ];
       specs_gpu := []; specs_mem := []; specs_fpga := [] |}
  = Ok [].
Proof. vm_compute. reflexivity. Qed.

Lemma regex_scalespecs_groups (arg : string) (d : GroupDict) :
  regex_scalespecs arg = Some d →
  (nodes d ≠ EmptyString ∧ all_digits (nodes d) = true) ∧
  (time d ≠ EmptyString ∧ all_digits (time d) = true).
Proof.
  unfold regex_scalespecs. intros H.
  pose proof (span_digits_fst arg) as Hn.
  destruct (span_digits arg) as [n r1]. simpl in Hn.
  destruct n as [|c n']; [done|].
  destruct r1 as [|c1 r2]; [done|].
  destruct (decide (c1 = ":"%char)) as [->|Hne]; last first.
  { destruct c1 as [[] [] [] [] [] [] [] []]; done. }
  pose proof (span_digits_fst r2) as Ht.
  destruct (span_digits r2) as [t r3]. simpl in Ht.
  destruct t as [|c2 t']; [done|].
  destruct (at_end r3); [|done].
  by simplify_eq.
Qed.

Lemma valid_entry_digits (d : GroupDict) :
  valid_entry d →
  (nodes d ≠ EmptyString ∧ all_digits (nodes d) = true) ∧
  (time d ≠ EmptyString ∧ all_digits (time d) = true).
Proof.
  intros [arg Harg]. unfold type_scalespecs in Harg.
  destruct (regex_scalespecs arg) as [d'|] eqn:Hre; [|done].
  simplify_eq. by apply regex_scalespecs_groups in Hre.
Qed.

Lemma node_count_nonneg (d : GroupDict) :
  valid_entry d → 0 ≤ node_count d.
Proof.
  intros [[_ Hn] _]%valid_entry_digits.
  by apply decimal_from_nonneg.
Qed.

Lemma convertibleb_spec (d : GroupDict) :
  convertibleb d = true ↔ convertible d.
Proof.
  unfold convertibleb, convertible, within_limit.
  rewrite andb_true_iff, orb_true_iff, !Z.leb_le, Z.eqb_eq. done.
Qed.

(** ** Loops that only append *)

Lemma for_each_emit {A B} (xs : list A)
    (body : A → list B → result (list B)) (f : A → list B) (acc : list B) :
  (∀ x s, x ∈ xs → body x s = Ok (s ++ f x)%list) →
  for_each xs body acc = Ok (acc ++ (x ← xs; f x))%list.
Proof.
  revert acc. induction xs as [|x xs IH]; intros acc Hbody; csimpl.
  - by rewrite app_nil_r.
  - rewrite Hbody by left. csimpl.
    rewrite IH by (intros; apply Hbody; by right).
    by rewrite app_assoc.
Qed.

(** A loop whose body either appends or raises, depending on the element
    alone: it appends for all elements, or raises at the first that
    does. *)
Lemma for_each_emit_or_raise {A B} (good : A → bool) (xs : list A)
    (body : A → list B → result (list B)) (f : A → list B) (e : exn)
    (acc : list B) :
  (∀ x s, x ∈ xs →
     body x s = if good x then Ok (s ++ f x)%list else Raise e) →
  for_each xs body acc
  = if forallb good xs then Ok (acc ++ (x ← xs; f x))%list else Raise e.
Proof.
  revert acc. induction xs as [|x xs IH]; intros acc Hbody; csimpl.
  - by rewrite app_nil_r.
  - rewrite Hbody by left. destruct (good x); csimpl; [|done].
    rewrite IH by (intros; apply Hbody; by right).
    destruct (forallb good xs); [|done]. by rewrite app_assoc.
Qed.

Lemma bind_singleton_const {A B} (l : list A) (x : B) :
  (l ≫= fun _ => [x]) = (fun _ => x) <$> l.
Proof. induction l as [|a l IH]; csimpl; [done|]. by rewrite IH. Qed.

Lemma fmap_const_seq {B} (x : B) (n a b : nat) :
  (fun _ => x) <$> seq a n = (fun _ => x) <$> seq b n.
Proof.
  revert a b. induction n as [|n IH]; intros a b; simpl; [done|].
  f_equal. apply IH.
Qed.

Lemma range_generations {B} (x : B) (n : Z) :
  (range n ≫= fun _ => [x]) = (fun _ => x) <$> seq 1 (Z.to_nat n).
Proof.
  rewrite bind_singleton_const. unfold range.
  rewrite <- list_fmap_compose. apply fmap_const_seq.
Qed.

Lemma getattr_specs_partitions (args : Namespace) (part : string) :
  part ∈ partitions → getattr_specs args part = Ok (specs_of args part).
Proof.
  unfold partitions. rewrite !elem_of_cons, elem_of_nil.
  intros [->|[->|[->|[->|[]]]]]; reflexivity.
Qed.

Lemma elem_of_entries (args : Namespace) (part : string) (d : GroupDict) :
  part ∈ partitions → d ∈ specs_of args part → (part, d) ∈ entries args.
Proof.
  unfold partitions, entries. rewrite !elem_of_cons, elem_of_nil.
  rewrite !elem_of_app, !list_elem_of_fmap.
  intros [->|[->|[->|[->|[]]]]] Hd; eauto 10.
Qed.

(** The two inner loops of [target] on one entry: its requests are
    appended, unless a conversion the loops perform exceeds the limit. *)
Lemma entry_loop (args : Namespace) (part : string) (d : GroupDict)
    (acc : list NodeSpecs) :
  valid_entry d →
  (n ← py_int (nodes d);
   for_each (range n) (fun _ scale_specs =>
     t ← py_int (time d);
     Ok (scale_specs ++ [ {|
       spec_region := region args;
       spec_pool := pool args;
       features := {[ part := true ]};
       seconds := t;
       spec_master := master args;
       spec_token := token args
     |} ])%list) acc)
  = if convertibleb d then Ok (acc ++ entry_requests args part d)%list
    else Raise ValueError.
Proof.
  intros Hd. pose proof (node_count_nonneg d Hd) as Hpos.
  apply valid_entry_digits in Hd as [[Hn1 Hn2] [Ht1 Ht2]].
  rewrite (py_int_digits _ Hn1 Hn2), (py_int_digits _ Ht1 Ht2).
  unfold convertibleb, entry_requests.
  fold (node_count d). fold (duration d).
  rewrite !Z.leb_antisym.
  destruct (int_max_str_digits <? Z.of_nat (String.length (nodes d)));
    [done|].
  cbn [mbind result_bind negb andb].
  destruct (decide (node_count d = 0)) as [H0|H0].
  - rewrite H0. by rewrite app_nil_r.
  - rewrite (proj2 (Z.eqb_neq _ _) H0). cbn [orb].
    destruct (int_max_str_digits <? Z.of_nat (String.length (time d))).
    + cbn [negb]. unfold range.
      destruct (Z.to_nat (node_count d)) eqn:Hn; [lia|]. done.
    + cbn [negb].
      rewrite (for_each_emit _ _
        (fun _ => [node_request args part (duration d)])); [|done].
      by rewrite range_generations.
Qed.

Lemma forallb_fmap {A B} (g : B → bool) (f : A → B) (l : list A) :
  forallb g (f <$> l) = forallb (fun x => g (f x)) l.
Proof.
  induction l as [|x l IH]; [done|].
  rewrite fmap_cons. cbn [forallb]. by rewrite IH.
Qed.

(** The first loop of [target] on arguments that hold entries of the
    grammar: the expansion, partitions in their fixed order, the entries
    of a partition in list order, the requests of an entry in generation
    order; or [ValueError] when a conversion exceeds the limit. *)
Lemma process_specs_exact (args : Namespace) :
  Forall (fun pd => valid_entry pd.2) (entries args) →
  process_specs args
  = if forallb (fun pd => convertibleb pd.2) (entries args)
    then Ok (expansion args) else Raise ValueError.
Proof.
  intros Hvalid. rewrite Forall_forall in Hvalid.
  unfold process_specs.
  rewrite (for_each_emit_or_raise
    (fun part => forallb convertibleb (specs_of args part)) _ _
    (fun part => d ← specs_of args part; entry_requests args part d)
    ValueError).
  - unfold entries, expansion, partitions.
    rewrite !forallb_app, !forallb_fmap. cbn [forallb snd].
    change (specs_of args "cpu") with (specs_cpu args).
    change (specs_of args "gpu") with (specs_gpu args).
    change (specs_of args "mem") with (specs_mem args).
    change (specs_of args "fpga") with (specs_fpga args).
    rewrite andb_true_r. csimpl. by rewrite app_nil_r.
  - intros part acc Hpart.
    rewrite getattr_specs_partitions by done. cbn [mbind result_bind].
    apply for_each_emit_or_raise. intros d acc' Hd.
    apply entry_loop. apply (Hvalid (part, d)). by apply elem_of_entries.
Qed.

(** ** Entries and their blocks *)


Lemma entry_requests_ext (a b : Namespace) (part : string) (d : GroupDict) :
  region a = region b → pool a = pool b →
  master a = master b → token a = token b →
  entry_requests a part d = entry_requests b part d.
Proof.
  intros Hr Hp Hm Ht. unfold entry_requests, node_request.
  by rewrite Hr, Hp, Hm, Ht.
Qed.





Lemma process_specs_no_specs (args : Namespace) :
  no_specs args → process_specs args = Ok [].
Proof.
  intros (Hc & Hg & Hm & Hf).
  unfold process_specs, partitions, getattr_specs. simpl.
  by rewrite Hc, Hg, Hm, Hf.
Qed.

(** ** Resolution of the cluster identity *)

Ltac io_unfold :=
  unfold mbind, mret, io_bind, io_ret, lift, raise, sys_exit, emit in *.

Section CommandFacts.

Variable JSON : Type.
Variable url : string.
Variable argv : list string.
Variable cfgfile : result (gmap string (gmap string string)).
Variable last_part : string → result string.
Variable format : string → string → string → result string.
Variable session_post :
  list event → string → NodeSpecs → bool → result (Response JSON).

Lemma end_with_usage_raises (msgs : list string) (log : list event) :
  ∃ e log', end_with_usage argv last_part format msgs log = (Raise e, log').
Proof.
  unfold end_with_usage. io_unfold.
  destruct (for_each_io msgs _ tt log) as [[[]|e] log']; eauto.
Qed.

Lemma truthy_Some (v : option string) :
  truthy v = true → ∃ s, v = Some s.
Proof. destruct v as [s|]; [eauto|done]. Qed.

Lemma manual_args_all (args : Namespace) :
  (length (manual_args args) <? 4)%nat = false →
  truthy (region args) = true ∧ truthy (pool args) = true ∧
  truthy (master args) = true ∧ truthy (token args) = true.
Proof.
  unfold manual_args. simpl.
  destruct (truthy (region args)), (truthy (pool args)),
    (truthy (master args)), (truthy (token args)); simpl; done.
Qed.

Lemma load_configuration_ok (args args' : Namespace) (nm : string) :
  load_configuration cfgfile args nm = Ok args' →
  ∃ config cfg r p m t,
    cfgfile = Ok config ∧ config !! nm = Some cfg ∧
    cfg !! "region" = Some r ∧ cfg !! "pool" = Some p ∧
    cfg !! "master" = Some m ∧ cfg !! "token" = Some t ∧
    args' = {| name := name args; region := Some r; pool := Some p;
               master := Some m; token := Some t; dry_run := dry_run args;
               specs_cpu := specs_cpu args; specs_gpu := specs_gpu args;
               specs_mem := specs_mem args; specs_fpga := specs_fpga args |}.
Proof.
  unfold load_configuration, getitem.
  destruct cfgfile as [config|]; [|done]. simpl.
  destruct (config !! nm) as [cfg|] eqn:Hcfg; [|done]. simpl.
  destruct (cfg !! "region") as [r|] eqn:Hr; [|done]. simpl.
  destruct (cfg !! "pool") as [p|] eqn:Hp; [|done]. simpl.
  destruct (cfg !! "master") as [m|] eqn:Hm; [|done]. simpl.
  destruct (cfg !! "token") as [t|] eqn:Ht; [|done]. simpl.
  intros [= <-]. by exists config, cfg, r, p, m, t.
Qed.

(** When [reprocess_args] returns, nothing was printed, the four identity
    fields are those of the resolved identity, and the specifications and
    the dry-run flag are untouched. *)
Lemma reprocess_args_ok (args0 args : Namespace) (log log' : list event) :
  reprocess_args argv cfgfile last_part format args0 log = (Ok args, log') →
  log' = log ∧
  (∃ ident, resolves_to cfgfile args0 ident ∧
     region args = Some (id_region ident) ∧
     pool args = Some (id_pool ident) ∧
     master args = Some (id_master ident) ∧
     token args = Some (id_token ident)) ∧
  dry_run args = dry_run args0 ∧
  specs_cpu args = specs_cpu args0 ∧ specs_gpu args = specs_gpu args0 ∧
  specs_mem args = specs_mem args0 ∧ specs_fpga args = specs_fpga args0.
Proof.
  unfold reprocess_args, resolves_to.
  destruct (name args0) as [nm|].
  - io_unfold. destruct (0 <? length (manual_args args0))%nat.
    { destruct (end_with_usage_raises usage_required log) as (e & l & ->).
      done. }
    destruct (load_configuration cfgfile args0 nm) as [args'|e] eqn:Hload.
    + intros [= <- <-].
      apply load_configuration_ok in Hload
        as (config & cfg & r & p & m & t & ? & ? & ? & ? & ? & ? & ->).
      split; [done|]. split; [|done].
      exists {| id_region := r; id_pool := p; id_master := m; id_token := t |}.
      simpl. split; [|done]. by exists config, cfg.
    + destruct (argv_get argv 1) as [a1|]; [|done].
      match goal with |- context [end_with_usage _ _ _ ?ms ?lg] =>
        destruct (end_with_usage_raises ms lg) as (e' & l & ->) end.
      done.
  - io_unfold.
    destruct (length (manual_args args0) <? 4)%nat eqn:Hlen.
    { destruct (end_with_usage_raises usage_required log) as (e & l & ->).
      done. }
    intros [= <- <-].
    apply manual_args_all in Hlen as (Hr & Hp & Hm & Ht).
    apply truthy_Some in Hr as [r Hr]. apply truthy_Some in Hp as [p Hp].
    apply truthy_Some in Hm as [m Hm]. apply truthy_Some in Ht as [t Ht].
    split; [done|]. split; [|done].
    by exists {| id_region := r; id_pool := p; id_master := m; id_token := t |}.
Qed.

Lemma forallb_true {A} (g : A → bool) (l : list A) :
  Forall (fun x => g x = true) l → forallb g l = true.
Proof. induction 1 as [|x l Hx _ IH]; simpl; [done|]. by rewrite Hx, IH. Qed.


Lemma posts_app (l1 l2 : list event) :
  posts (l1 ++ l2) = (posts l1 ++ posts l2)%list.
Proof. apply List.filter_app. Qed.

Lemma posts_stderr (log : list event) (line : string) :
  posts (log ++ [Stderr line]) = posts log.
Proof. rewrite posts_app. apply app_nil_r. Qed.

Lemma silent_ret {A} (a : A) : silent (mret a).
Proof. by intros log r log' [= _ <-]. Qed.

Lemma silent_lift {A} (r : result A) : silent (lift r).
Proof. by intros log r' log' [= _ <-]. Qed.

Lemma silent_raise {A} (e : exn) : silent (@raise A e).
Proof. by intros log r' log' [= _ <-]. Qed.

Lemma silent_stderr (line : string) : silent (emit (Stderr line)).
Proof. intros log r' log' [= _ <-]. apply posts_stderr. Qed.

Lemma silent_bind {A B} (m : io A) (k : A → io B) :
  silent m → (∀ a, silent (k a)) → silent (m ≫= k).
Proof.
  intros Hm Hk log r log'. unfold mbind, io_bind.
  destruct (m log) as [[a|e] l] eqn:Hml.
  - intros Hkl. apply Hk in Hkl. apply Hm in Hml. congruence.
  - intros [= _ <-]. by apply Hm in Hml.
Qed.

Lemma silent_for_each_io {A S} (xs : list A) (body : A → S → io S) (s : S) :
  (∀ x s', silent (body x s')) → silent (for_each_io xs body s).
Proof.
  intros Hbody. revert s. induction xs as [|x xs IH]; intros s; simpl.
  - apply silent_ret.
  - apply silent_bind; [apply Hbody|apply IH].
Qed.

Lemma silent_end_with_usage (msgs : list string) :
  silent (end_with_usage argv last_part format msgs).
Proof.
  unfold end_with_usage. apply silent_bind; [|intros; apply silent_raise].
  apply silent_for_each_io. intros msg _.
  repeat (apply silent_bind; [apply silent_lift|intros]).
  apply silent_stderr.
Qed.

(** [reprocess_args] sends nothing, whether it returns or exits. *)
Lemma reprocess_args_posts (args0 : Namespace) :
  silent (reprocess_args argv cfgfile last_part format args0).
Proof.
  unfold reprocess_args. destruct (name args0) as [nm|].
  - apply silent_bind.
    { case_match; [apply silent_end_with_usage|apply silent_ret]. }
    intros _. destruct (load_configuration cfgfile args0 nm).
    + apply silent_ret.
    + apply silent_bind; [apply silent_lift|intros a1].
      apply silent_bind; [apply silent_end_with_usage|intros; apply silent_ret].
  - apply silent_bind; [|intros; apply silent_ret].
    case_match; [apply silent_end_with_usage|apply silent_ret].
Qed.

(** When the identity does not resolve, [target] stops there and nothing
    is sent. *)
Lemma target_unresolved (args0 : Namespace) (log log' : list event)
    (e : exn) :
  reprocess_args argv cfgfile last_part format args0 log = (Raise e, log') →
  target JSON url argv cfgfile last_part format session_post args0 log
  = (Raise e, log') ∧ posts log' = posts log.
Proof.
  intros Hre. split; [|by eapply reprocess_args_posts].
  unfold target. io_unfold. by rewrite Hre.
Qed.

(** When the expansion yields nothing, [target] prints the message and
    exits before the request loop. *)
Lemma target_empty (args0 args : Namespace) (log log' : list event) :
  reprocess_args argv cfgfile last_part format args0 log = (Ok args, log') →
  process_specs args = Ok [] →
  target JSON url argv cfgfile last_part format session_post args0 log
  = (Raise (SystemExit 1), (log ++ [Stderr specs_required])%list).
Proof.
  intros Hre Hps.
  pose proof (reprocess_args_ok _ _ _ _ Hre) as (-> & _).
  unfold target. io_unfold. by rewrite Hre, Hps.
Qed.

(** With no partition option at all, nothing is requested. *)
Lemma target_no_flags (args0 args : Namespace) (log log' : list event) :
  reprocess_args argv cfgfile last_part format args0 log = (Ok args, log') →
  no_specs args0 →
  target JSON url argv cfgfile last_part format session_post args0 log
  = (Raise (SystemExit 1), (log ++ [Stderr specs_required])%list).
Proof.
  intros Hre (Hc & Hg & Hm & Hf). eapply target_empty; [exact Hre|].
  apply reprocess_args_ok in Hre as (_ & _ & _ & Hc' & Hg' & Hm' & Hf').
  apply process_specs_no_specs. unfold no_specs. by rewrite Hc', Hg', Hm', Hf'.
Qed.

(** C3. When the identity resolves and the expansion yields no request,
    [target] fails: it writes one line to standard error, which names the
    form [--<partition> <nodes>:<seconds>] for each of the four partitions,
    exits with status 1, and has posted nothing to the remote API. *)
Theorem target_no_requests (args0 args : Namespace) (log log' : list event)
    (scale_specs : list NodeSpecs) :
  reprocess_args argv cfgfile last_part format args0 log = (Ok args, log') →
  process_specs args = Ok scale_specs →
  length scale_specs = 0%nat →
  ∃ final,
    target JSON url argv cfgfile last_part format session_post args0 log
    = (Raise (SystemExit 1), final) ∧
    final = (log ++ [Stderr specs_required])%list ∧
    posts final = posts log ∧
    Forall (fun p =>
      occurs_in ("--" +:+ p +:+ " <nodes>:<seconds>") specs_required = true)
      partitions.
Proof.
  intros Hre Hps Hlen. apply nil_length_inv in Hlen as ->.
  eexists. split; [by eapply target_empty|]. split; [done|].
  split; [apply posts_stderr|].
  unfold partitions. repeat constructor.
Qed.

End CommandFacts.

(** ** From the command line to the order of the requests *)

Lemma occurrences_cons (q : string) (o : partition_option) (arg : string)
    (flags : list (partition_option * string)) :
  occurrences q ((o, arg) :: flags)
  = ((if decide (option_partition o = q)
      then option_list (regex_scalespecs arg) else [])
     ++ occurrences q flags)%list.
Proof.
  unfold occurrences. simpl. case_decide; [|done].
  by destruct (regex_scalespecs arg).
Qed.

(** The arguments the parser builds: the lists of the four partitions
    grow by the occurrences of their options, in command-line order, and
    nothing else changes. *)
Lemma parse_partition_flags_ok (flags : list (partition_option * string))
    (args0 args : Namespace) :
  parse_partition_flags flags args0 = Ok args →
  args =
    {| name := name args0; region := region args0; pool := pool args0;
       master := master args0; token := token args0;
       dry_run := dry_run args0;
       specs_cpu := specs_cpu args0 ++ occurrences "cpu" flags;
       specs_gpu := specs_gpu args0 ++ occurrences "gpu" flags;
       specs_mem := specs_mem args0 ++ occurrences "mem" flags;
       specs_fpga := specs_fpga args0 ++ occurrences "fpga" flags |}.
Proof.
  unfold parse_partition_flags.
  revert args0. induction flags as [|[o arg] flags IH]; intros args0 Hrest;
    simpl in Hrest.
  - injection Hrest as <-. unfold occurrences. simpl.
    rewrite !app_nil_r. by destruct args0.
  - unfold type_scalespecs in Hrest.
    destruct (regex_scalespecs arg) as [d|] eqn:Hre; [|done].
    simpl in Hrest. apply IH in Hrest as ->.
    rewrite !occurrences_cons, Hre.
    destruct o; simpl; by rewrite <- ?app_assoc.
Qed.

Lemma occurrences_valid (part : string)
    (flags : list (partition_option * string)) :
  Forall valid_entry (occurrences part flags).
Proof.
  apply Forall_forall. intros d ([o arg] & _ & Hd)%list_elem_of_omap.
  case_decide; [|done]. exists arg. unfold type_scalespecs. by rewrite Hd.
Qed.

Lemma occurrences_of_flags (part : string)
    (flags : list (partition_option * string)) (d : GroupDict) :
  d ∈ occurrences part flags →
  ∃ o arg, (o, arg) ∈ flags ∧ regex_scalespecs arg = Some d.
Proof.
  intros ([o arg] & Hin & Hd)%list_elem_of_omap.
  case_decide; [|done]. eauto.
Qed.

Lemma request_rank_node_request (args : Namespace) (part : string) (t : Z)
    (i : nat) :
  enumeration_order !! i = Some part →
  request_rank (node_request args part t) = i.
Proof.
  unfold enumeration_order. intros H.
  destruct i as [|[|[|[|i]]]]; simplify_eq/=; by vm_compute.
Qed.

Lemma entry_block_rank (args : Namespace) (part : string) (i : nat)
    (specs : list GroupDict) :
  enumeration_order !! i = Some part →
  Forall (eq i) (request_rank <$> (d ← specs; entry_requests args part d)).
Proof.
  intros Hi. apply Forall_fmap, Forall_forall.
  intros r (d & Hr & _)%list_elem_of_bind.
  unfold entry_requests in Hr. apply list_elem_of_fmap in Hr as (k & -> & _).
  simpl. symmetry. by apply request_rank_node_request.
Qed.

Lemma sorted_const_app (k : nat) (l1 l2 : list nat) :
  Forall (eq k) l1 → Forall (le k) l2 → StronglySorted le l2 →
  StronglySorted le (l1 ++ l2).
Proof.
  intros H1 H2 Hs. induction H1 as [|x l1 <- H1 IH]; simpl; [done|].
  constructor; [done|]. apply Forall_app. split; [|done].
  eapply Forall_impl; [exact H1|]. intros y <-. done.
Qed.

(** The ranks of four blocks laid out in the enumeration order never
    decrease. *)
Lemma partition_blocks_sorted (args : Namespace)
    (specs : string → list GroupDict) :
  StronglySorted le
    (request_rank <$>
       ((d ← specs "cpu"; entry_requests args "cpu" d) ++
        (d ← specs "gpu"; entry_requests args "gpu" d) ++
        (d ← specs "mem"; entry_requests args "mem" d) ++
        (d ← specs "fpga"; entry_requests args "fpga" d))%list).
Proof.
  rewrite !fmap_app.
  pose proof (entry_block_rank args "cpu" 0 (specs "cpu") eq_refl) as H0.
  pose proof (entry_block_rank args "gpu" 1 (specs "gpu") eq_refl) as H1.
  pose proof (entry_block_rank args "mem" 2 (specs "mem") eq_refl) as H2.
  pose proof (entry_block_rank args "fpga" 3 (specs "fpga") eq_refl) as H3.
  assert (∀ (i j : nat) l, (i ≤ j)%nat → Forall (eq j) l → Forall (le i) l)
    as Hle.
  { intros i j l Hij Hl. eapply Forall_impl; [exact Hl|]. intros y <-. done. }
  apply (sorted_const_app 0); [done| |].
  { rewrite !Forall_app. repeat split; eapply Hle; try eassumption; lia. }
  apply (sorted_const_app 1); [done| |].
  { rewrite !Forall_app. repeat split; eapply Hle; try eassumption; lia. }
  apply (sorted_const_app 2); [done| |].
  { eapply Hle; try eassumption; lia. }
  rewrite <- (app_nil_r (_ <$> _)).
  apply (sorted_const_app 3); [done|constructor|constructor].
Qed.

(** What [process_specs] does on the arguments parsed from [flags]. *)
Lemma process_specs_of_flags (args0 args : Namespace)
    (flags : list (partition_option * string)) :
  no_specs args0 →
  parse_partition_flags flags args0 = Ok args →
  process_specs args
  = if forallb (fun pd => convertibleb pd.2) (entries args)
    then Ok (ordered_requests args0 flags) else Raise ValueError.
Proof.
  intros (Hc & Hg & Hm & Hf) ->%parse_partition_flags_ok.
  rewrite Hc, Hg, Hm, Hf. cbn [app].
  rewrite process_specs_exact.
  - destruct (forallb _ _); [|done]. reflexivity.
  - unfold entries. cbn [specs_cpu specs_gpu specs_mem specs_fpga].
    rewrite !Forall_app, !Forall_fmap.
    repeat split; (eapply Forall_impl; [apply occurrences_valid|done]).
Qed.

(** C2. Whatever the order of the partition options on the command line,
    the list [target] builds from them, when it builds one, is the
    requests grouped by partition in the order cpu, gpu, mem, fpga; inside
    a partition the entries follow the order in which the occurrences of
    its option were given; inside an entry its requests are those of
    generations [1..N] in ascending order. Hence the partition ranks never
    decrease along the list, and two command lines that give each
    partition the same occurrences in the same order are expanded alike.
    The list is built whenever every conversion the loops perform is
    within the limit of [int]. *)
Theorem process_specs_order (args0 args : Namespace)
    (flags : list (partition_option * string)) :
  no_specs args0 →
  parse_partition_flags flags args0 = Ok args →
  (∀ out, process_specs args = Ok out → out = ordered_requests args0 flags) ∧
  ((∀ o arg d, (o, arg) ∈ flags → regex_scalespecs arg = Some d →
      convertible d) →
   process_specs args = Ok (ordered_requests args0 flags)) ∧
  StronglySorted le (request_rank <$> ordered_requests args0 flags) ∧
  ∀ flags' args',
    (∀ part, part ∈ enumeration_order →
       occurrences part flags' = occurrences part flags) →
    parse_partition_flags flags' args0 = Ok args' →
    process_specs args' = process_specs args.
Proof.
  intros Hno Hparse.
  pose proof (process_specs_of_flags args0 args flags Hno Hparse) as Hps.
  split; [|split; [|split]].
  - intros out. rewrite Hps. destruct (forallb _ _); [|done]. by intros [= <-].
  - intros Hconv. rewrite Hps, forallb_true; [done|].
    apply parse_partition_flags_ok in Hparse as ->.
    unfold entries. cbn [specs_cpu specs_gpu specs_mem specs_fpga].
    destruct Hno as (-> & -> & -> & ->). cbn [app].
    rewrite !Forall_app, !Forall_fmap.
    repeat split; apply Forall_forall; intros d Hd; cbn;
      apply convertibleb_spec;
      apply occurrences_of_flags in Hd as (o & arg & Hin & Hre); eauto.
  - apply (partition_blocks_sorted args0 (fun part => occurrences part flags)).
  - unfold enumeration_order. intros flags' args' Hsame Hparse'.
    apply parse_partition_flags_ok in Hparse as ->.
    apply parse_partition_flags_ok in Hparse' as ->.
    rewrite !Hsame; [done|..]; rewrite !elem_of_cons; auto 10.
Qed.

(** ** The theorems at sample invocations *)




Lemma process_specs_order_witness :
  process_specs sample_parsed =
    Ok [ node_request explicit_args "cpu" 60;
         node_request explicit_args "cpu" 60;
         node_request explicit_args "cpu" 30;
         node_request explicit_args "gpu" 120 ].
Proof.
  destruct (process_specs_order explicit_args sample_parsed sample_flags)
    as (_ & Hok & _).
  - repeat split.
  - reflexivity.
  - rewrite Hok; [reflexivity|].
    intros o arg d Hin Hre. apply convertibleb_spec.
    unfold sample_flags in Hin. rewrite !elem_of_cons, elem_of_nil in Hin.
    destruct Hin as [Hin|[Hin|[Hin|[]]]]; injection Hin as -> ->;
      vm_compute in Hre; injection Hre as <-; reflexivity.
Defined.

Lemma target_no_requests_witness :
  target unit "https://api.example" sample_argv (Raise ValueError)
    (fun s => Ok s) (fun msg _ _ => Ok msg) accepting_api zero_args []
  = (Raise (SystemExit 1),
     [ Stderr "Scaling specifications required: [--cpu <nodes>:<seconds>], [--gpu <nodes>:<seconds>], [--mem <nodes>:<seconds>], [--fpga <nodes>:<seconds>]" ]).
Proof.
  destruct (target_no_requests unit "https://api.example" sample_argv
              (Raise ValueError) (fun s => Ok s) (fun msg _ _ => Ok msg)
              accepting_api zero_args zero_args [] [] [])
    as (final & -> & -> & _).
  - reflexivity.
  - reflexivity.
  - reflexivity.
  - reflexivity.
Defined.

(** ** The token grammar, exactly *)

Lemma append_cons (c : ascii) (s r : string) :
  String c s +:+ r = String c (s +:+ r).
Proof. reflexivity. Qed.

Lemma append_empty_r (s : string) : s +:+ "" = s.
Proof. induction s as [|c s IH]; [done|]. by rewrite append_cons, IH. Qed.

Lemma span_digits_split (s d r : string) :
  span_digits s = (d, r) →
  s = d +:+ r ∧ all_digits d = true.
Proof.
  revert d r. induction s as [|c s IH]; intros d r; simpl.
  - by intros [= <- <-].
  - destruct (is_digit c) eqn:Hc; [|by intros [= <- <-]].
    destruct (span_digits s) as [d' r'] eqn:Hs. intros [= <- <-].
    destruct (IH d' r' eq_refl) as [-> Hd].
    rewrite append_cons. simpl. by rewrite Hc.
Qed.

Lemma span_digits_stop (d r : string) :
  all_digits d = true →
  match r with String c _ => is_digit c = false | EmptyString => True end →
  span_digits (d +:+ r) = (d, r).
Proof.
  intros Hd Hr. induction d as [|c d IH].
  - change ("" +:+ r) with r. destruct r as [|c r]; [done|]. simpl.
    by rewrite Hr.
  - simpl in Hd. apply andb_prop in Hd as [Hc Hd].
    rewrite append_cons. simpl. by rewrite Hc, IH.
Qed.

Lemma at_end_inv (s : string) :
  at_end s = true → s = "" ∨ s = newline.
Proof.
  destruct s as [|c [|c' s]]; simpl; [by left| |done].
  intros Hc%Nat.eqb_eq. right. unfold newline.
  by rewrite <- Hc, ascii_nat_embedding.
Qed.

(** X1. [type_scalespecs] accepts exactly the tokens made of a non-empty
    run of ASCII digits, a colon and a second such run, optionally followed
    by one newline, and returns the two runs unchanged (leading zeros and
    all); everything else raises [TypeError]. *)
Theorem type_scalespecs_exact (arg : string) (d : GroupDict) :
  type_scalespecs arg = Ok d ↔
  digits (nodes d) ∧ digits (time d) ∧
  (arg = nodes d +:+ ":" +:+ time d ∨
   arg = nodes d +:+ ":" +:+ time d +:+ newline).
Proof.
  unfold type_scalespecs, digits. split.
  - destruct (regex_scalespecs arg) as [d'|] eqn:Hre; [|done].
    intros [= ->].
    pose proof (regex_scalespecs_groups _ _ Hre) as [Hn Ht].
    split; [done|]. split; [done|].
    unfold regex_scalespecs in Hre.
    destruct (span_digits arg) as [n r1] eqn:Hs1.
    apply span_digits_split in Hs1 as [-> _].
    destruct n as [|c n]; [done|]. destruct r1 as [|c1 r2]; [done|].
    destruct (decide (c1 = ":"%char)) as [->|Hne]; last first.
    { destruct c1 as [[] [] [] [] [] [] [] []]; done. }
    destruct (span_digits r2) as [t r3] eqn:Hs2.
    apply span_digits_split in Hs2 as [-> _].
    destruct t as [|c2 t]; [done|].
    destruct (at_end r3) eqn:Hend; [|done]. simplify_eq. simpl.
    rewrite !append_cons.
    apply at_end_inv in Hend as [->| ->]; [left|right]; [|done].
    by rewrite append_empty_r.
  - intros ([Hn1 Hn2] & [Ht1 Ht2] & Harg).
    destruct d as [n t]. simpl in *.
    assert (∀ rest, at_end rest = true →
      match rest with String c _ => is_digit c = false | "" => True end →
      regex_scalespecs (n +:+ ":" +:+ t +:+ rest)
      = Some {| nodes := n; time := t |}) as Hgo.
    { intros rest Hend Hstop. unfold regex_scalespecs.
      rewrite (span_digits_stop n (":" +:+ t +:+ rest)) by done.
      destruct n as [|c n]; [done|]. rewrite append_cons.
      change ("" +:+ t +:+ rest) with (t +:+ rest).
      rewrite (span_digits_stop t rest) by done.
      destruct t as [|c2 t]; [done|]. by rewrite Hend. }
    destruct Harg as [-> | ->].
    + rewrite <- (append_empty_r t) at 1. by rewrite Hgo.
    + by rewrite Hgo.
Qed.

(** ** The request loop *)

Section Dispatch.

Variable JSON : Type.
Variable url : string.
Variable argv : list string.
Variable cfgfile : result (gmap string (gmap string string)).
Variable last_part : string → result string.
Variable format : string → string → string → result string.
Variable session_post :
  list event → string → NodeSpecs → bool → result (Response JSON).

Lemma post_node_step (args : Namespace) (r : NodeSpecs)
    (stats : list JSON) (log : list event) :
  post_node url session_post args r stats log
  = (match reply_outcome
             (session_post (log ++ [Stdout r])%list (pool_url url args) r
                (dry_run args)) with
     | Ok body => Ok (stats ++ [body])%list
     | Raise e => Raise e
     end,
     (log ++ dispatched url args [r])%list).
Proof.
  unfold post_node, reply_outcome, raise_for_status, dispatched.
  io_unfold. csimpl. rewrite <- app_assoc. simpl.
  destruct (session_post _ _ _ _) as [req|e]; [|done].
  destruct ((400 <=? status_code req) && (status_code req <? 600)); [done|].
  by destruct (json_body req).
Qed.

Lemma dispatched_app (args : Namespace) (l1 l2 : list NodeSpecs) :
  dispatched url args (l1 ++ l2)
  = (dispatched url args l1 ++ dispatched url args l2)%list.
Proof. apply bind_app. Qed.

Lemma dispatched_cons (args : Namespace) (x : NodeSpecs)
    (l : list NodeSpecs) :
  dispatched url args (x :: l)
  = (dispatched url args [x] ++ dispatched url args l)%list.
Proof. apply (dispatched_app args [x] l). Qed.

Lemma posts_dispatched (args : Namespace) (sent : list NodeSpecs) :
  posts (dispatched url args sent) = expected_posts url args sent.
Proof.
  induction sent as [|r sent IH]; [done|].
  unfold dispatched, expected_posts in *. csimpl. by rewrite <- IH.
Qed.

(** Past the two guards, [target] is its request loop. *)
Lemma target_dispatch (args0 args : Namespace) (log log' : list event)
    (scale_specs : list NodeSpecs) :
  reprocess_args argv cfgfile last_part format args0 log = (Ok args, log') →
  process_specs args = Ok scale_specs →
  scale_specs ≠ [] →
  target JSON url argv cfgfile last_part format session_post args0 log
  = for_each_io scale_specs (post_node url session_post args) [] log.
Proof.
  intros Hre Hps Hne.
  pose proof (reprocess_args_ok _ _ _ _ _ _ _ _ Hre) as (-> & _).
  unfold target. io_unfold. rewrite Hre, Hps.
  destruct scale_specs; [done|]. reflexivity.
Qed.

(** The loop sends a prefix of its list, and stops at the first exchange
    that fails. *)
Lemma request_loop_prefix (args : Namespace) (todo : list NodeSpecs)
    (stats : list JSON) (log log' : list event) (r : result (list JSON)) :
  for_each_io todo (post_node url session_post args) stats log = (r, log') →
  ∃ sent rest,
    todo = (sent ++ rest)%list ∧
    log' = (log ++ dispatched url args sent)%list ∧
    match r with
    | Ok stats' =>
        rest = [] ∧ length stats' = (length stats + length todo)%nat
    | Raise _ => sent ≠ []
    end.
Proof.
  revert stats log. induction todo as [|x todo IH]; intros stats log; simpl.
  - intros [= <- <-]. exists [], []. unfold dispatched. csimpl.
    rewrite app_nil_r. repeat split. lia.
  - unfold mbind at 1, io_bind. rewrite post_node_step.
    destruct (reply_outcome _) as [body|e].
    + intros Hrest. apply IH in Hrest as (sent & rest & -> & -> & Hr).
      exists (x :: sent), rest. split; [done|].
      split; [by rewrite (dispatched_cons _ x sent), app_assoc|].
      destruct r as [stats'|]; [|done].
      destruct Hr as [-> Hlen]. split; [done|].
      rewrite Hlen, length_app. simpl. rewrite !length_app. simpl. lia.
    + intros [= <- <-]. by exists [x], todo.
Qed.

Lemma request_loop_all_succeed (args : Namespace) (todo : list NodeSpecs)
    (stats : list JSON) (log : list event) :
  (∀ i r, todo !! i = Some r →
     ∃ body, reply_outcome
       (session_post (log ++ dispatched url args (take i todo) ++ [Stdout r])
          (pool_url url args) r (dry_run args)) = Ok body) →
  ∃ bodies,
    for_each_io todo (post_node url session_post args) stats log
    = (Ok (stats ++ bodies)%list, (log ++ dispatched url args todo)%list) ∧
    length bodies = length todo ∧
    ∀ i r, todo !! i = Some r →
      ∃ body, bodies !! i = Some body ∧
        reply_outcome
          (session_post
             (log ++ dispatched url args (take i todo) ++ [Stdout r])
             (pool_url url args) r (dry_run args)) = Ok body.
Proof.
  revert stats log. induction todo as [|x todo IH]; intros stats log Hall.
  - exists []. cbn [for_each_io]. unfold dispatched. csimpl.
    rewrite !app_nil_r. split; [done|]. split; [done|]. by intros i r.
  - destruct (Hall 0%nat x eq_refl) as [b0 Hb0].
    unfold dispatched in Hb0 at 1. csimpl in Hb0.
    destruct (IH (stats ++ [b0])%list (log ++ dispatched url args [x])%list)
      as (bodies & Hrun & Hlen & Hidx).
    { intros i r Hi. destruct (Hall (S i) r Hi) as [b Hb]. exists b.
      cbn [take] in Hb. rewrite dispatched_cons, <- !app_assoc in Hb.
      rewrite <- !app_assoc. exact Hb. }
    exists (b0 :: bodies). cbn [for_each_io].
    unfold mbind at 1, io_bind. rewrite post_node_step, Hb0, Hrun.
    split; [by rewrite (dispatched_cons _ x todo), <- !app_assoc|].
    split; [simpl; by rewrite Hlen|].
    intros [|i] r Hi.
    + injection Hi as <-. exists b0. split; [done|].
      unfold dispatched at 1. csimpl. exact Hb0.
    + destruct (Hidx i r Hi) as (b & Hb1 & Hb2). exists b. split; [done|].
      cbn [take]. rewrite dispatched_cons, <- !app_assoc.
      rewrite <- !app_assoc in Hb2. exact Hb2.
Qed.

Lemma request_loop_abort (args : Namespace) (pre : list NodeSpecs)
    (x : NodeSpecs) (rest : list NodeSpecs) (e : exn) (stats : list JSON)
    (log : list event) :
  (∀ i r, pre !! i = Some r →
     ∃ body, reply_outcome
       (session_post (log ++ dispatched url args (take i pre) ++ [Stdout r])
          (pool_url url args) r (dry_run args)) = Ok body) →
  reply_outcome
    (session_post (log ++ dispatched url args pre ++ [Stdout x])
       (pool_url url args) x (dry_run args)) = Raise e →
  for_each_io (pre ++ x :: rest) (post_node url session_post args) stats log
  = (Raise e, (log ++ dispatched url args (pre ++ [x]))%list).
Proof.
  revert stats log. induction pre as [|p pre IH]; intros stats log Hpre Hx.
  - cbn [for_each_io app]. unfold mbind at 1, io_bind.
    rewrite post_node_step.
    unfold dispatched in Hx at 1. csimpl in Hx. by rewrite Hx.
  - cbn [for_each_io app]. unfold mbind at 1, io_bind.
    rewrite post_node_step.
    destruct (Hpre 0%nat p eq_refl) as [body Hbody].
    unfold dispatched in Hbody at 1. csimpl in Hbody. rewrite Hbody.
    rewrite IH.
    + by rewrite (dispatched_cons _ p (pre ++ [x])), <- !app_assoc.
    + intros i r Hi. destruct (Hpre (S i) r Hi) as [b Hb]. exists b.
      cbn [take] in Hb. rewrite dispatched_cons, <- !app_assoc in Hb.
      rewrite <- !app_assoc. exact Hb.
    + rewrite dispatched_cons, <- !app_assoc in Hx.
      rewrite <- !app_assoc. exact Hx.
Qed.

(** X2. Whatever the remote API answers and however [target] ends, the
    requests it has posted are a prefix of the expanded list, in order,
    each to the pool's URL with the [dry_run] flag of the arguments; when
    [target] returns, the whole list went out and there is one result per
    request. *)
Theorem target_posts_prefix (args0 args : Namespace)
    (log log0 log' : list event) (scale_specs : list NodeSpecs)
    (r : result (list JSON)) :
  reprocess_args argv cfgfile last_part format args0 log = (Ok args, log0) →
  process_specs args = Ok scale_specs →
  target JSON url argv cfgfile last_part format session_post args0 log
  = (r, log') →
  ∃ sent rest,
    scale_specs = (sent ++ rest)%list ∧
    posts log' = (posts log ++ expected_posts url args sent)%list ∧
    ∀ stats, r = Ok stats →
      rest = [] ∧ length stats = length scale_specs.
Proof.
  intros Hre Hps Hrun.
  destruct (decide (scale_specs = [])) as [->|Hne].
  - rewrite (target_empty _ _ _ _ _ _ _ _ _ _ _ Hre Hps) in Hrun.
    injection Hrun as <- <-. exists [], []. split; [done|].
    split; [|done]. rewrite posts_stderr. by rewrite app_nil_r.
  - rewrite (target_dispatch _ _ _ _ _ Hre Hps Hne) in Hrun.
    apply request_loop_prefix in Hrun as (sent & rest & -> & -> & Hr).
    exists sent, rest. split; [done|].
    split; [by rewrite posts_app, posts_dispatched|].
    intros stats ->. by destruct Hr as [-> ->].
Qed.

(** X3. When every exchange with the remote API succeeds, each at the
    point of the run where it happens, [target] prints and posts each
    request in turn and returns one decoded answer per request, in the
    order of the requests: the answer at position [i] is the body the API
    gave to the request at position [i]. The API may answer identical
    requests differently. *)
Theorem target_all_accepted (args0 args : Namespace)
    (log log0 : list event) (scale_specs : list NodeSpecs) :
  reprocess_args argv cfgfile last_part format args0 log = (Ok args, log0) →
  process_specs args = Ok scale_specs →
  scale_specs ≠ [] →
  (∀ i r, scale_specs !! i = Some r →
     ∃ body, reply_outcome
       (session_post
          (log ++ dispatched url args (take i scale_specs) ++ [Stdout r])
          (pool_url url args) r (dry_run args)) = Ok body) →
  ∃ stats,
    target JSON url argv cfgfile last_part format session_post args0 log
    = (Ok stats, (log ++ dispatched url args scale_specs)%list) ∧
    length stats = length scale_specs ∧
    ∀ i r, scale_specs !! i = Some r →
      ∃ body, stats !! i = Some body ∧
        reply_outcome
          (session_post
             (log ++ dispatched url args (take i scale_specs) ++ [Stdout r])
             (pool_url url args) r (dry_run args)) = Ok body.
Proof.
  intros Hre Hps Hne Hacc.
  rewrite (target_dispatch _ _ _ _ _ Hre Hps Hne).
  destruct (request_loop_all_succeed args scale_specs [] log Hacc)
    as (bodies & Hrun & Hlen & Hidx).
  exists bodies. by rewrite Hrun.
Qed.

(** X4. When the exchanges for the requests [pre] succeed and the one for
    the next request [x] fails (transport failure, a 4xx or 5xx status, or
    a body that does not decode), [target] raises that failure at once:
    [x] is the last request posted, the requests after it are never sent,
    and the answers already collected are not returned. *)
Theorem target_aborts (args0 args : Namespace) (log log0 : list event)
    (pre : list NodeSpecs) (x : NodeSpecs) (rest : list NodeSpecs)
    (e : exn) :
  reprocess_args argv cfgfile last_part format args0 log = (Ok args, log0) →
  process_specs args = Ok (pre ++ x :: rest)%list →
  (∀ i r, pre !! i = Some r →
     ∃ body, reply_outcome
       (session_post (log ++ dispatched url args (take i pre) ++ [Stdout r])
          (pool_url url args) r (dry_run args)) = Ok body) →
  reply_outcome
    (session_post (log ++ dispatched url args pre ++ [Stdout x])
       (pool_url url args) x (dry_run args)) = Raise e →
  ∃ final,
    target JSON url argv cfgfile last_part format session_post args0 log
    = (Raise e, final) ∧
    final = (log ++ dispatched url args (pre ++ [x]))%list ∧
    posts final = (posts log ++ expected_posts url args (pre ++ [x]))%list.
Proof.
  intros Hre Hps Hpre Hx. eexists. split; [|split; [done|]].
  - rewrite (target_dispatch _ _ _ _ _ Hre Hps) by (by destruct pre).
    by apply request_loop_abort.
  - by rewrite posts_app, posts_dispatched.
Qed.

(** ** Usage errors *)

Lemma end_with_usage_prints (msgs lines : list string) (log : list event)
    (a0 a1 a2 prog : string) :
  argv !! 0%nat = Some a0 → argv !! 1%nat = Some a1 →
  argv !! 2%nat = Some a2 → last_part a0 = Ok prog →
  Forall2 (fun msg line =>
    format msg prog (prog +:+ " " +:+ a1 +:+ " " +:+ a2) = Ok line)
    msgs lines →
  end_with_usage argv last_part format msgs log
  = (Raise (SystemExit 1), (log ++ (Stderr <$> lines))%list).
Proof.
  intros H0 H1 H2 Hprog Hfmt. unfold end_with_usage.
  assert (for_each_io msgs (fun msg _ =>
      melctl ← lift (a0 ← argv_get argv 0; last_part a0);
      prog ← lift (a0 ← argv_get argv 0; last_part a0);
      a1 ← lift (argv_get argv 1);
      a2 ← lift (argv_get argv 2);
      line ← lift (format msg melctl (prog +:+ " " +:+ a1 +:+ " " +:+ a2));
      emit (Stderr line)) tt log
    = (Ok tt, (log ++ (Stderr <$> lines))%list)) as Hloop.
  { revert log. induction Hfmt as [|msg line msgs lines Hline _ IH];
      intros log; cbn [for_each_io].
    - io_unfold. by rewrite app_nil_r.
    - unfold mbind at 1, io_bind at 1.
      unfold argv_get. rewrite H0, H1, H2. io_unfold. simpl.
      rewrite Hprog. simpl. rewrite Hline.
      unfold argv_get in IH. rewrite H0, H1, H2 in IH.
      io_unfold. simpl in IH. rewrite Hprog in IH. simpl in IH.
      rewrite IH. by rewrite <- app_assoc. }
  unfold mbind at 1, io_bind at 1. by rewrite Hloop.
Qed.

(** X5. [reprocess_args] returns in exactly two cases, and then prints
    nothing: a name is given, none of the four identity options is
    non-empty, and the configuration file holds that name with its four
    entries, which become the identity; or no name is given and all four
    options are non-empty, and the arguments come back unchanged. An option
    given as the empty string counts as absent. *)
Theorem reprocess_args_returns (args0 args : Namespace)
    (log log' : list event) :
  reprocess_args argv cfgfile last_part format args0 log = (Ok args, log') ↔
  log' = log ∧
  match name args0 with
  | Some nm =>
      manual_args args0 = [] ∧
      ∃ config cfg r p m t,
        cfgfile = Ok config ∧ config !! nm = Some cfg ∧
        cfg !! "region" = Some r ∧ cfg !! "pool" = Some p ∧
        cfg !! "master" = Some m ∧ cfg !! "token" = Some t ∧
        args = {| name := name args0; region := Some r; pool := Some p;
                  master := Some m; token := Some t;
                  dry_run := dry_run args0;
                  specs_cpu := specs_cpu args0; specs_gpu := specs_gpu args0;
                  specs_mem := specs_mem args0;
                  specs_fpga := specs_fpga args0 |}
  | None =>
      truthy (region args0) = true ∧ truthy (pool args0) = true ∧
      truthy (master args0) = true ∧ truthy (token args0) = true ∧
      args = args0
  end.
Proof.
  unfold reprocess_args. destruct (name args0) as [nm|] eqn:Hname.
  - io_unfold. destruct (manual_args args0) as [|v vs] eqn:Hman; simpl.
    + split.
      * destruct (load_configuration cfgfile args0 nm) as [a|e] eqn:Hload.
        -- intros [= <- <-]. split; [done|]. split; [done|].
           apply load_configuration_ok in Hload
             as (config & cfg & r & p & m & t & ? & ? & ? & ? & ? & ? & ->).
           rewrite Hname. by exists config, cfg, r, p, m, t.
        -- destruct (argv_get argv 1) as [a1|]; [|done].
           match goal with |- context [end_with_usage _ _ _ ?ms ?lg] =>
             destruct (end_with_usage_raises argv last_part format ms lg)
               as (e' & l & ->) end.
           done.
      * intros (-> & _ & config & cfg & r & p & m & t
                  & Hc & Hn & Hr & Hp & Hm & Ht & ->).
        unfold load_configuration, getitem.
        rewrite Hc. simpl. rewrite Hn. simpl. rewrite Hr. simpl.
        rewrite Hp. simpl. rewrite Hm. simpl. rewrite Ht. simpl.
        by rewrite Hname.
    + destruct (end_with_usage_raises argv last_part format
                  usage_required log) as (e & l & ->).
      split; [done|]. by intros (_ & ? & _).
  - io_unfold. destruct (length (manual_args args0) <? 4)%nat eqn:Hlen.
    + destruct (end_with_usage_raises argv last_part format
                  usage_required log) as (e & l & ->).
      split; [done|]. intros (_ & Hr & Hp & Hm & Ht & _).
      unfold manual_args in Hlen. simpl in Hlen.
      by rewrite Hr, Hp, Hm, Ht in Hlen.
    + apply manual_args_all in Hlen as (Hr & Hp & Hm & Ht).
      split; [by intros [= <- <-]|]. by intros (-> & _ & _ & _ & _ & ->).
Qed.

(** X6. A name together with a non-empty identity option, or no name and
    fewer than four non-empty identity options, is a usage error: [target]
    prints the two usage lines on standard error and exits with status 1,
    without looking at the configuration file or at the specifications and
    without posting anything. *)
Theorem target_usage_error (args0 : Namespace) (log : list event)
    (a0 a1 a2 prog l1 l2 : string) :
  argv !! 0%nat = Some a0 → argv !! 1%nat = Some a1 →
  argv !! 2%nat = Some a2 → last_part a0 = Ok prog →
  Forall2 (fun msg line =>
    format msg prog (prog +:+ " " +:+ a1 +:+ " " +:+ a2) = Ok line)
    usage_required [l1; l2] →
  match name args0 with
  | Some _ => manual_args args0 ≠ []
  | None => (length (manual_args args0) < 4)%nat
  end →
  ∃ final,
    target JSON url argv cfgfile last_part format session_post args0 log
    = (Raise (SystemExit 1), final) ∧
    final = (log ++ [Stderr l1; Stderr l2])%list ∧
    posts final = posts log.
Proof.
  intros H0 H1 H2 Hprog Hfmt Hbad.
  pose proof (end_with_usage_prints _ _ log _ _ _ _ H0 H1 H2 Hprog Hfmt)
    as Husage.
  assert (reprocess_args argv cfgfile last_part format args0 log
          = (Raise (SystemExit 1), (log ++ [Stderr l1; Stderr l2])%list))
    as Hre.
  { unfold reprocess_args. destruct (name args0) as [nm|].
    - unfold mbind at 1, io_bind at 1.
      destruct (manual_args args0) as [|v vs]; [done|]. simpl.
      by rewrite Husage.
    - unfold mbind at 1, io_bind at 1.
      apply Nat.ltb_lt in Hbad. rewrite Hbad. by rewrite Husage. }
  eexists. split; [|split; [done|]].
  - by apply target_unresolved.
  - by eapply reprocess_args_posts.
Qed.

(** X7. A name no identity option accompanies, when the configuration file
    cannot be read, does not hold the name, or holds it without one of its
    four entries: [target] prints that the configuration is not found or
    invalid and how to create it, then exits with status 1; nothing is
    posted. *)
Theorem target_missing_configuration (args0 : Namespace) (log : list event)
    (nm a0 a1 a2 prog l1 l2 : string) :
  argv !! 0%nat = Some a0 → argv !! 1%nat = Some a1 →
  argv !! 2%nat = Some a2 → last_part a0 = Ok prog →
  Forall2 (fun msg line =>
    format msg prog (prog +:+ " " +:+ a1 +:+ " " +:+ a2) = Ok line)
    [ "{cmd}: error: configuration " +:+ nm +:+ " not found or invalid";
      "You may create the configuration with {melctl} " +:+ a1
        +:+ " set-config" ]
    [l1; l2] →
  name args0 = Some nm →
  manual_args args0 = [] →
  (∀ config cfg, cfgfile = Ok config → config !! nm = Some cfg →
     ∃ k, k ∈ identity_keys ∧ cfg !! k = None) →
  ∃ final,
    target JSON url argv cfgfile last_part format session_post args0 log
    = (Raise (SystemExit 1), final) ∧
    final = (log ++ [Stderr l1; Stderr l2])%list ∧
    posts final = posts log.
Proof.
  intros H0 H1 H2 Hprog Hfmt Hname Hman Hcfg.
  pose proof (end_with_usage_prints _ _ log _ _ _ _ H0 H1 H2 Hprog Hfmt)
    as Husage.
  assert (∃ e, load_configuration cfgfile args0 nm = Raise e) as [e Hload].
  { destruct (load_configuration cfgfile args0 nm) as [a|e] eqn:Hload;
      [|by eauto].
    apply load_configuration_ok in Hload
      as (config & cfg & r & p & m & t & Hc & Hn & Hr & Hp & Hm & Ht & _).
    destruct (Hcfg config cfg Hc Hn) as (k & Hk & Hnone).
    unfold identity_keys in Hk.
    rewrite !elem_of_cons, elem_of_nil in Hk.
    destruct Hk as [->|[->|[->|[->|[]]]]]; congruence. }
  assert (reprocess_args argv cfgfile last_part format args0 log
          = (Raise (SystemExit 1), (log ++ [Stderr l1; Stderr l2])%list))
    as Hre.
  { unfold reprocess_args. rewrite Hname, Hman, Hload.
    unfold argv_get. rewrite H1. io_unfold. simpl.
    unfold mbind, io_bind in Husage. by rewrite Husage. }
  eexists. split; [|split; [done|]].
  - by apply target_unresolved.
  - by eapply reprocess_args_posts.
Qed.

End Dispatch.

End Scale.

(** * The configuration commands *)

(** ** Ordered dictionaries *)

Lemma dict_get_set_eq {V} (d : list (string * V)) (k : string) (v : V) :
  dict_get (dict_set d k v) k = Some v.
Proof.
  induction d as [|[k' v'] d IH]; simpl.
  - by rewrite decide_True.
  - case_decide; simpl; [by rewrite decide_True|]. by rewrite decide_False.
Qed.

Lemma dict_get_set_ne {V} (d : list (string * V)) (k k' : string) (v : V) :
  k' ≠ k → dict_get (dict_set d k v) k' = dict_get d k'.
Proof.
  intros Hne. induction d as [|[k0 v0] d IH]; simpl.
  - by rewrite decide_False.
  - destruct (decide (k0 = k)) as [->|]; simpl.
    + by rewrite !decide_False.
    + by rewrite IH.
Qed.

Lemma dict_get_None {V} (d : list (string * V)) (k : string) :
  dict_get d k = None ↔ k ∉ d.*1.
Proof.
  induction d as [|[k' v'] d IH]; simpl.
  - split; [intros _; apply not_elem_of_nil|done].
  - rewrite not_elem_of_cons. destruct (decide (k' = k)) as [->|Hne].
    + split; [done|]. by intros [? _].
    + rewrite IH. split; [|by intros [_ ?]]. intros ?. split; [|done].
      by intros ->.
Qed.

Lemma dict_set_keys {V} (d : list (string * V)) (k : string) (v : V) :
  (dict_set d k v).*1
  = (d.*1 ++ if decide (k ∈ d.*1) then [] else [k])%list.
Proof.
  induction d as [|[k' v'] d IH].
  - cbn [dict_set fmap list_fmap app]. case_decide as Hin; [|done].
    by apply elem_of_nil in Hin.
  - cbn [dict_set]. destruct (decide (k' = k)) as [->|Hne].
    + rewrite !fmap_cons. cbn [fst]. rewrite decide_True by left.
      by rewrite app_nil_r.
    + rewrite !fmap_cons, IH. cbn [fst app]. f_equal. f_equal.
      destruct (decide (k ∈ d.*1)) as [Hin|Hnin].
      * rewrite decide_True; [done|by right].
      * rewrite decide_False; [done|]. rewrite not_elem_of_cons.
        split; [by intros ->|done].
Qed.

Lemma dict_get_del_eq {V} (d : list (string * V)) (k : string) :
  dict_get (dict_del d k) k = None.
Proof.
  apply dict_get_None. unfold dict_del.
  intros ([k' v] & -> & Hin)%list_elem_of_fmap.
  apply list_elem_of_filter in Hin as [Hne _]. done.
Qed.

Lemma dict_get_del_ne {V} (d : list (string * V)) (k k' : string) :
  k' ≠ k → dict_get (dict_del d k) k' = dict_get d k'.
Proof.
  intros Hne. unfold dict_del. induction d as [|[k0 v0] d IH]; [done|].
  rewrite filter_cons. simpl. destruct (decide (k0 ≠ k)) as [Hk|Hk]; simpl.
  - by rewrite IH.
  - apply dec_stable in Hk as ->. by rewrite decide_False.
Qed.

Lemma dict_del_absent {V} (d : list (string * V)) (k : string) :
  dict_get d k = None → dict_del d k = d.
Proof.
  rewrite dict_get_None. intros Hk. unfold dict_del.
  induction d as [|[k0 v0] d IH]; [done|].
  simpl in Hk. rewrite not_elem_of_cons in Hk. destruct Hk as [Hne Hk].
  rewrite filter_cons. simpl. rewrite decide_True by done. by rewrite IH.
Qed.

Lemma dict_del_keys {V} (d : list (string * V)) (k : string) :
  (dict_del d k).*1 = filter (fun k' => k' ≠ k) d.*1.
Proof.
  unfold dict_del. induction d as [|[k0 v0] d IH]; [done|].
  rewrite filter_cons, (fmap_cons fst), filter_cons. cbn [fst].
  destruct (decide (k0 ≠ k)); [|done].
  rewrite fmap_cons. cbn [fst]. by rewrite IH.
Qed.

Lemma list_to_map_dict_get (d : list (string * gmap string string))
    (k : string) :
  (list_to_map d : gmap string (gmap string string)) !! k = dict_get d k.
Proof.
  induction d as [|[k' v'] d IH]; simpl; [done|].
  case_decide; simplify_map_eq; done.
Qed.

Lemma set_config_target_ok (path : string) (args : SetConfig.Args) (f : file)
    (config : list (string * gmap string string)) :
  contents f = Some config →
  SetConfig.target path args f
  = (Ok {[ "file" := path; "name" := SetConfig.name args ]},
     Stored (dict_set config (SetConfig.name args) (SetConfig.entry args))).
Proof. intros Hf. destruct f; simplify_eq/=; done. Qed.

(** X8. [set-config] is an upsert that rewrites the whole file: starting
    from a missing file, or from a file that holds configurations by name,
    each a dictionary of strings, it stores the four fields under the
    name, leaves every other configuration as it was, and keeps the order
    of the names, a new name going last; the names stay distinct. *)
Theorem set_config_upsert (path : string) (args : SetConfig.Args) (f : file)
    (config : list (string * gmap string string)) :
  contents f = Some config →
  ∃ config',
    SetConfig.target path args f
    = (Ok {[ "file" := path; "name" := SetConfig.name args ]},
       Stored config') ∧
    dict_get config' (SetConfig.name args) = Some (SetConfig.entry args) ∧
    (∀ k, k ≠ SetConfig.name args → dict_get config' k = dict_get config k) ∧
    config'.*1
    = (config.*1 ++ if decide (SetConfig.name args ∈ config.*1)
                    then [] else [SetConfig.name args])%list ∧
    (NoDup config.*1 → NoDup config'.*1).
Proof.
  intros Hf.
  exists (dict_set config (SetConfig.name args) (SetConfig.entry args)).
  split; [|split; [|split; [|split]]].
  - by apply set_config_target_ok.
  - apply dict_get_set_eq.
  - intros k Hk. by apply dict_get_set_ne.
  - apply dict_set_keys.
  - intros Hnd. rewrite dict_set_keys. case_decide.
    + by rewrite app_nil_r.
    + apply NoDup_app. split; [done|]. split; [|apply NoDup_singleton].
      intros k Hk ->%list_elem_of_singleton. done.
Qed.

(** ** Reading the configurations *)

Lemma with_name_lookup (k : string) (v : gmap string string) (key : string) :
  key ≠ "name" → GetConfig.with_name (k, v) !! key = v !! key.
Proof.
  intros Hne. unfold GetConfig.with_name. simpl.
  rewrite lookup_union, lookup_singleton_ne by done.
  by destruct (v !! key).
Qed.

Lemma with_name_fresh (k : string) (v : gmap string string) :
  v !! "name" = None → GetConfig.with_name (k, v) = <["name" := k]> v.
Proof.
  intros Hv. unfold GetConfig.with_name. simpl.
  by rewrite insert_union_singleton_r.
Qed.

Lemma entry_lookup_name (args : SetConfig.Args) :
  SetConfig.entry args !! "name" = None.
Proof. unfold SetConfig.entry. by simplify_map_eq. Qed.

Lemma entry_lookup_token (args : SetConfig.Args) :
  SetConfig.entry args !! "token" = Some (SetConfig.token args).
Proof. unfold SetConfig.entry. by simplify_map_eq. Qed.

(** X9. A configuration written by [set-config] is read back by
    [get-config] under its name: with [--token] the answer is the four
    stored fields and the name, without it the same dictionary less the
    token; nothing is printed. *)
Theorem set_config_then_get (path : string) (args : SetConfig.Args)
    (f : file) (config : list (string * gmap string string)) (tk : bool) :
  contents f = Some config →
  GetConfig.target path
    {| GetConfig.name := Some (SetConfig.name args); GetConfig.token := tk |}
    (SetConfig.target path args f).2
  = (Ok [ <["name" := SetConfig.name args]>
            (if tk then SetConfig.entry args
             else delete "token" (SetConfig.entry args)) ],
     []).
Proof.
  intros Hf. rewrite (set_config_target_ok path args f config Hf).
  unfold GetConfig.target, GetConfig.selected. simpl.
  rewrite dict_get_set_eq. simpl.
  destruct tk; simpl.
  - by rewrite with_name_fresh by apply entry_lookup_name.
  - unfold GetConfig.del_token. simpl. rewrite entry_lookup_token. simpl.
    rewrite with_name_fresh; [done|].
    rewrite lookup_delete_ne by done. apply entry_lookup_name.
Qed.

(** X10. Without [--token], no dictionary that [get-config] returns has a
    [token] key, whether one configuration is asked for or all. *)
Theorem get_config_hides_tokens (path : string) (args : GetConfig.Args)
    (f : file) (l : list (gmap string string))
    (out : list GetConfig.printed) :
  GetConfig.token args = false →
  GetConfig.target path args f = (Ok l, out) →
  Forall (fun d => d !! "token" = None) l.
Proof.
  intros Htk. unfold GetConfig.target. rewrite Htk.
  destruct f as [|err|config|v]; [by intros [= <- _]|done| |done].
  destruct (GetConfig.selected args config) as [sel|]; [|done]. simpl.
  destruct (mapM GetConfig.del_token sel) as [stripped|] eqn:Hm; [|done].
  simpl. intros [= <- _]. apply Forall_fmap.
  apply mapM_Some_1 in Hm. clear -Hm.
  induction Hm as [|[k v] [k' v'] sel stripped Hx _ IH]; constructor; [|done].
  unfold GetConfig.del_token in Hx. simpl in Hx.
  destruct (v !! "token"); simplify_eq. simpl.
  rewrite with_name_lookup by done. apply lookup_delete_eq.
Qed.

(** X11. Listing without a name and without [--token], over
    configurations that all hold a token and no [name] entry of their own:
    [get-config] returns one dictionary per configuration, in file order,
    each with its name, without its token, and with every other field as
    stored. *)
Theorem get_config_lists_all (path : string)
    (config : list (string * gmap string string)) :
  Forall (fun kv => is_Some (kv.2 !! "token") ∧ kv.2 !! "name" = None)
    config →
  ∃ l,
    GetConfig.target path
      {| GetConfig.name := None; GetConfig.token := false |} (Stored config)
    = (Ok l, []) ∧
    Forall2 (fun kv d =>
      d !! "name" = Some kv.1 ∧ d !! "token" = None ∧
      ∀ key, key ≠ "name" → key ≠ "token" → d !! key = kv.2 !! key)
      config l.
Proof.
  intros Hall. unfold GetConfig.target, GetConfig.selected. simpl.
  assert (mapM GetConfig.del_token config
          = Some ((fun kv => (kv.1, delete "token" kv.2)) <$> config)) as ->.
  { apply mapM_Some, Forall2_fmap_r, Forall_Forall2_diag.
    eapply Forall_impl; [exact Hall|]. intros [k v] [[t Ht] _].
    unfold GetConfig.del_token. simpl in *. by rewrite Ht. }
  simpl. eexists. split; [done|].
  rewrite <- list_fmap_compose. apply Forall2_fmap_r, Forall_Forall2_diag.
  eapply Forall_impl; [exact Hall|]. intros [k v] [_ Hname]. simpl in *.
  rewrite with_name_fresh by (by rewrite lookup_delete_ne).
  split; [by rewrite lookup_insert_eq|]. split.
  - rewrite lookup_insert_ne by done. apply lookup_delete_eq.
  - intros key Hn Ht. rewrite lookup_insert_ne by done.
    by rewrite lookup_delete_ne.
Qed.

Lemma get_config_absent (path nm : string) (tk : bool)
    (config : list (string * gmap string string)) :
  dict_get config nm = None →
  GetConfig.target path
    {| GetConfig.name := Some nm; GetConfig.token := tk |} (Stored config)
  = (Raise (SystemExit 1),
     [GetConfig.OnStderr ("Configuration " +:+ nm +:+ " is not defined")]).
Proof.
  intros Hnm.
  unfold GetConfig.target, GetConfig.selected. simpl. by rewrite Hnm.
Qed.

(** X12. Asking [get-config] for a name the file does not hold prints
    [Configuration <name> is not defined] on standard error and exits with
    status 1, with or without [--token]. *)
Theorem get_config_unknown_name (path nm : string) (tk : bool)
    (config : list (string * gmap string string)) :
  nm ∉ config.*1 →
  GetConfig.target path
    {| GetConfig.name := Some nm; GetConfig.token := tk |} (Stored config)
  = (Raise (SystemExit 1),
     [GetConfig.OnStderr ("Configuration " +:+ nm +:+ " is not defined")]).
Proof.
  intros Hnm%dict_get_None. by apply get_config_absent.
Qed.

(** X13. Listing all configurations without [--token] when one of them has
    no [token] entry: the failed deletion is reported as a missing
    configuration named after the absent name argument, [Configuration
    None is not defined], and the command exits with status 1 instead of
    listing anything. *)
Theorem get_config_entry_without_token (path : string)
    (config : list (string * gmap string string)) :
  Exists (fun kv => kv.2 !! "token" = None) config →
  GetConfig.target path
    {| GetConfig.name := None; GetConfig.token := false |} (Stored config)
  = (Raise (SystemExit 1),
     [GetConfig.OnStderr "Configuration None is not defined"]).
Proof.
  intros Hex. unfold GetConfig.target, GetConfig.selected. simpl.
  assert (mapM GetConfig.del_token config = None) as ->; [|done].
  apply mapM_None. eapply Exists_impl; [exact Hex|].
  intros [k v] Hv. unfold GetConfig.del_token. simpl in *. by rewrite Hv.
Qed.

(** ** Deleting a configuration *)

Lemma del_config_target_stored (nm : string)
    (config : list (string * gmap string string)) :
  DelConfig.target nm (Stored config)
  = (Ok {[ "deleted" := nm ]}, Stored (dict_del config nm)).
Proof.
  unfold DelConfig.target. simpl. case_decide as Hin; [done|].
  rewrite dict_del_absent; [done|].
  destruct (dict_get config nm) eqn:Hg; [|done]. destruct Hin. eauto.
Qed.

(** X14. [del-config] on a file that holds configurations by name, each
    a dictionary of strings, removes the name and nothing else: afterwards
    the name is absent, every other configuration is as before and in the
    same order, and a name that was not there leaves the content
    unchanged; on such a file the report always says [deleted]. On a
    missing file it reports nothing and creates no file. *)
Theorem del_config_removes (nm : string)
    (config : list (string * gmap string string)) :
  DelConfig.target nm Missing = (Ok ∅, Missing) ∧
  ∃ config',
    DelConfig.target nm (Stored config)
    = (Ok {[ "deleted" := nm ]}, Stored config') ∧
    dict_get config' nm = None ∧
    (∀ k, k ≠ nm → dict_get config' k = dict_get config k) ∧
    config'.*1 = filter (fun k => k ≠ nm) config.*1 ∧
    (nm ∉ config.*1 → config' = config).
Proof.
  split; [done|]. exists (dict_del config nm).
  rewrite del_config_target_stored.
  split; [done|]. split; [apply dict_get_del_eq|].
  split; [intros k Hk; by apply dict_get_del_ne|].
  split; [apply dict_del_keys|].
  intros Hnm%dict_get_None. by apply dict_del_absent.
Qed.

(** X15. After [del-config] of a name from a file that holds
    configurations by name, [get-config] of that name fails as for a name
    that was never defined. When there is no file, [del-config] creates
    none, and [get-config] of the name then returns the empty list,
    prints nothing and does not exit. *)
Theorem del_config_then_get (path nm : string) (tk : bool)
    (config : list (string * gmap string string)) :
  GetConfig.target path
    {| GetConfig.name := Some nm; GetConfig.token := tk |}
    (DelConfig.target nm (Stored config)).2
  = (Raise (SystemExit 1),
     [GetConfig.OnStderr ("Configuration " +:+ nm +:+ " is not defined")]) ∧
  GetConfig.target path
    {| GetConfig.name := Some nm; GetConfig.token := tk |}
    (DelConfig.target nm Missing).2
  = (Ok [], []).
Proof.
  split; [|done].
  rewrite del_config_target_stored. cbn [snd].
  apply get_config_absent, dict_get_del_eq.
Qed.

(** X21. Neither [set-config] nor [del-config] touches a file it fails
    on: whenever one of them raises (the file does not decode, or decodes
    to something that is not an object and refuses the assignment, the
    membership test or the deletion), the file is left as it was. *)
Theorem config_failure_keeps_file (path nm : string)
    (args : SetConfig.Args) (f : file) (e : exn) :
  ((SetConfig.target path args f).1 = Raise e →
   (SetConfig.target path args f).2 = f) ∧
  ((DelConfig.target nm f).1 = Raise e →
   (DelConfig.target nm f).2 = f).
Proof.
  split.
  - by destruct f.
  - destruct f as [| | |v]; try done.
    unfold DelConfig.target.
    by destruct (DelConfig.contains v nm) as [[]|].
Qed.

(** ** From [set-config] to [scale] *)

(** X16. A configuration written by [set-config] resolves when [scale] is
    given its name and no identity option: [reprocess_args] returns the
    arguments with the four stored fields as region, pool, master and
    token, and prints nothing. *)
Theorem set_config_then_scale (argv : list string)
    (last_part : string → result string)
    (format : string → string → string → result string)
    (path : string) (sargs : SetConfig.Args) (f : file)
    (config : list (string * gmap string string))
    (args0 : Scale.Namespace) (log : list Scale.event) :
  contents f = Some config →
  Scale.name args0 = Some (SetConfig.name sargs) →
  Scale.manual_args args0 = [] →
  ∃ config',
    (SetConfig.target path sargs f).2 = Stored config' ∧
    Scale.reprocess_args argv (Ok (list_to_map config')) last_part format
      args0 log
    = (Ok {| Scale.name := Scale.name args0;
             Scale.region := Some (SetConfig.region sargs);
             Scale.pool := Some (SetConfig.pool sargs);
             Scale.master := Some (SetConfig.master sargs);
             Scale.token := Some (SetConfig.token sargs);
             Scale.dry_run := Scale.dry_run args0;
             Scale.specs_cpu := Scale.specs_cpu args0;
             Scale.specs_gpu := Scale.specs_gpu args0;
             Scale.specs_mem := Scale.specs_mem args0;
             Scale.specs_fpga := Scale.specs_fpga args0 |}, log).
Proof.
  intros Hf Hname Hman. rewrite (set_config_target_ok path sargs f config Hf).
  eexists. split; [done|].
  unfold Scale.reprocess_args. rewrite Hname, Hman.
  unfold Scale.load_configuration, Scale.getitem. cbn [mbind result_bind].
  rewrite list_to_map_dict_get, dict_get_set_eq. cbn [mbind result_bind].
  unfold SetConfig.entry. simplify_map_eq. by rewrite Hname.
Qed.

(** ** Rendering pools *)

Lemma mapM_result_Forall2 {A B} (f : A → result B) (l : list A)
    (k : list B) :
  Forall2 (fun x y => f x = Ok y) l k → mapM f l = Ok k.
Proof.
  induction 1 as [|x y l k Hx _ IH]; [done|].
  change (mapM f (x :: l)) with (y' ← f x; k' ← mapM f l; mret (y' :: k')).
  by rewrite Hx, IH.
Qed.

Lemma render_pool_ok (items : list (string * json_value))
    (nodes names : list json_value) (pool : json_value) :
  Pools.pool_of items nodes names pool →
  Pools.render_pool pool
  = Ok (JDict (dict_set
          (dict_set items "nodes_count" (JInt (Z.of_nat (length nodes))))
          "nodes_list" (JList names))).
Proof.
  intros (-> & Hnodes & Hnames). unfold Pools.render_pool.
  cbn [py_getitem]. rewrite Hnodes. cbn [mbind result_bind py_len py_setitem].
  cbn [py_getitem]. rewrite dict_get_set_ne by done. rewrite Hnodes.
  cbn [mbind result_bind py_iter].
  rewrite (mapM_result_Forall2 _ nodes names); [done|].
  eapply Forall2_impl; [exact Hnames|]. intros n nm Hn.
  destruct n; try done. simpl in *. by rewrite Hn.
Qed.

(** X17. On a list of pool descriptors, each a dictionary whose [nodes]
    is a list of dictionaries with a [name], [render] returns the same
    pools in the same order, each with [nodes_count] set to the number of
    its nodes and [nodes_list] to their names in order, every other field
    left as it was. *)
Theorem render_pools (pools : list json_value) :
  Forall (fun pool => ∃ items nodes names,
    Pools.pool_of items nodes names pool) pools →
  ∃ pools',
    Pools.render (JList pools) = Ok (JList pools') ∧
    Forall2 (fun pool pool' => ∃ items items' nodes names,
      Pools.pool_of items nodes names pool ∧
      pool' = JDict items' ∧
      dict_get items' "nodes_count" = Some (JInt (Z.of_nat (length nodes))) ∧
      dict_get items' "nodes_list" = Some (JList names) ∧
      ∀ k, k ≠ "nodes_count" → k ≠ "nodes_list" →
        dict_get items' k = dict_get items k)
      pools pools'.
Proof.
  intros Hpools.
  assert (∃ pools', Forall2 (fun pool pool' =>
      Pools.render_pool pool = Ok pool' ∧
      ∃ items nodes names, Pools.pool_of items nodes names pool ∧
        pool' = JDict (dict_set
          (dict_set items "nodes_count" (JInt (Z.of_nat (length nodes))))
          "nodes_list" (JList names))) pools pools') as [pools' H2].
  { induction Hpools as [|pool pools (items & nodes & names & Hp) _ [ps IH]].
    - exists []. constructor.
    - eexists (_ :: ps). constructor; [|exact IH].
      split; [by eapply render_pool_ok|]. by exists items, nodes, names. }
  exists pools'. split.
  - unfold Pools.render. cbn [py_iter mbind result_bind].
    rewrite (mapM_result_Forall2 _ pools pools'); [done|].
    eapply Forall2_impl; [exact H2|]. by intros ?? [? _].
  - eapply Forall2_impl; [exact H2|].
    intros pool pool' (_ & items & nodes & names & Hp & ->).
    eexists items, _, nodes, names. split; [done|]. split; [done|].
    split; [|split].
    + rewrite dict_get_set_ne by done. apply dict_get_set_eq.
    + apply dict_get_set_eq.
    + intros k Hc Hl. by rewrite !dict_get_set_ne.
Qed.

(** X18. Given a JSON object rather than a list, [render] iterates over
    its keys, which are strings and cannot be indexed by ['nodes']: it
    raises [TypeError], unless the object is empty. *)
Theorem render_object (items : list (string * json_value)) :
  items ≠ [] → Pools.render (JDict items) = Raise TypeError.
Proof.
  intros Hne. destruct items as [|[k v] items]; [done|]. reflexivity.
Qed.

(** ** Writing twice, writing then deleting *)

Lemma dict_set_set {V} (d : list (string * V)) (k : string) (v1 v2 : V) :
  dict_set (dict_set d k v1) k v2 = dict_set d k v2.
Proof.
  induction d as [|[k' v'] d IH]; cbn [dict_set].
  - by rewrite decide_True.
  - destruct (decide (k' = k)) as [->|Hne]; cbn [dict_set].
    + by rewrite decide_True.
    + by rewrite decide_False, IH.
Qed.

Lemma dict_del_set_fresh {V} (d : list (string * V)) (k : string) (v : V) :
  k ∉ d.*1 → dict_del (dict_set d k v) k = d.
Proof.
  unfold dict_del. induction d as [|[k' v'] d IH]; intros Hk.
  - cbn [dict_set]. rewrite filter_cons. cbn [fst].
    by rewrite decide_False by (by intros ?).
  - rewrite fmap_cons, not_elem_of_cons in Hk. destruct Hk as [Hne Hk].
    cbn [dict_set fst]. rewrite decide_False by done.
    rewrite filter_cons. cbn [fst]. rewrite decide_True by done.
    by rewrite IH.
Qed.

(** X19. [set-config] overwrites: writing a name twice leaves the file as
    a single write of the second values would, the name keeping the place
    it had or took at the first write. *)
Theorem set_config_overwrites (path : string) (a1 a2 : SetConfig.Args)
    (f : file) (config : list (string * gmap string string)) :
  contents f = Some config →
  SetConfig.name a1 = SetConfig.name a2 →
  (SetConfig.target path a2 (SetConfig.target path a1 f).2).2
  = (SetConfig.target path a2 f).2.
Proof.
  intros Hf Hname.
  rewrite (set_config_target_ok path a1 f config Hf).
  rewrite (set_config_target_ok path a2 f config Hf). cbn [snd].
  rewrite (set_config_target_ok path a2 (Stored _) _ eq_refl). cbn [snd].
  by rewrite Hname, dict_set_set.
Qed.

(** X20. [set-config] of a name the file does not hold, followed by
    [del-config] of that name, gives back the configurations that were
    there, in their order; when there was no file, an empty one is left
    behind. *)
Theorem set_config_then_del (path : string) (args : SetConfig.Args)
    (f : file) (config : list (string * gmap string string)) :
  contents f = Some config →
  SetConfig.name args ∉ config.*1 →
  DelConfig.target (SetConfig.name args) (SetConfig.target path args f).2
  = (Ok {[ "deleted" := SetConfig.name args ]}, Stored config).
Proof.
  intros Hf Hfresh.
  rewrite (set_config_target_ok path args f config Hf). cbn [snd].
  rewrite del_config_target_stored. by rewrite dict_del_set_fresh.
Qed.

(** ** The properties at sample inputs *)

Lemma target_posts_prefix_witness :
  ∃ sent rest,
    Scale.sample_requests = (sent ++ rest)%list ∧
    Scale.posts
      (Scale.target unit "https://api.example" Scale.sample_argv
         (Raise ValueError) (fun s => Ok s) (fun msg _ _ => Ok msg)
         Scale.one_shot_api Scale.sample_parsed []).2
    = (Scale.posts [] ++
       Scale.expected_posts "https://api.example" Scale.sample_parsed sent)%list ∧
    ∀ stats,
      (Scale.target unit "https://api.example" Scale.sample_argv
         (Raise ValueError) (fun s => Ok s) (fun msg _ _ => Ok msg)
         Scale.one_shot_api Scale.sample_parsed []).1 = Ok stats →
      rest = [] ∧ length stats = length Scale.sample_requests.
Proof.
  apply (Scale.target_posts_prefix unit "https://api.example"
           Scale.sample_argv (Raise ValueError) (fun s => Ok s)
           (fun msg _ _ => Ok msg) Scale.one_shot_api
           Scale.sample_parsed Scale.sample_parsed [] []).
  - reflexivity.
  - reflexivity.
  - apply surjective_pairing.
Defined.

Lemma target_all_accepted_witness :
  ∃ stats,
    Scale.target nat "https://api.example" Scale.sample_argv
      (Raise ValueError) (fun s => Ok s) (fun msg _ _ => Ok msg)
      Scale.counting_api Scale.sample_parsed []
    = (Ok stats,
       ([] ++ Scale.dispatched "https://api.example" Scale.sample_parsed
                Scale.sample_requests)%list) ∧
    length stats = length Scale.sample_requests ∧
    ∀ i r, Scale.sample_requests !! i = Some r →
      ∃ body, stats !! i = Some body ∧
        Scale.reply_outcome
          (Scale.counting_api
             ([] ++ Scale.dispatched "https://api.example"
                      Scale.sample_parsed (take i Scale.sample_requests)
                 ++ [Scale.Stdout r])
             (Scale.pool_url "https://api.example" Scale.sample_parsed) r
             (Scale.dry_run Scale.sample_parsed)) = Ok body.
Proof.
  apply (Scale.target_all_accepted nat "https://api.example"
           Scale.sample_argv (Raise ValueError) (fun s => Ok s)
           (fun msg _ _ => Ok msg) Scale.counting_api
           Scale.sample_parsed Scale.sample_parsed [] []
           Scale.sample_requests).
  - reflexivity.
  - reflexivity.
  - discriminate.
  - intros i r _. eexists. reflexivity.
Defined.

Lemma target_aborts_witness :
  ∃ final,
    Scale.target unit "https://api.example" Scale.sample_argv
      (Raise ValueError) (fun s => Ok s) (fun msg _ _ => Ok msg)
      Scale.one_shot_api Scale.sample_parsed []
    = (Raise (HTTPError 503), final) ∧
    final
    = ([] ++ Scale.dispatched "https://api.example" Scale.sample_parsed
         ([Scale.node_request Scale.explicit_args "cpu" 60]
          ++ [Scale.node_request Scale.explicit_args "cpu" 60]))%list ∧
    Scale.posts final
    = (Scale.posts [] ++
       Scale.expected_posts "https://api.example" Scale.sample_parsed
         ([Scale.node_request Scale.explicit_args "cpu" 60]
          ++ [Scale.node_request Scale.explicit_args "cpu" 60]))%list.
Proof.
  apply (Scale.target_aborts unit "https://api.example"
           Scale.sample_argv (Raise ValueError) (fun s => Ok s)
           (fun msg _ _ => Ok msg) Scale.one_shot_api
           Scale.sample_parsed Scale.sample_parsed [] []
           [Scale.node_request Scale.explicit_args "cpu" 60]
           (Scale.node_request Scale.explicit_args "cpu" 60)
           [Scale.node_request Scale.explicit_args "cpu" 30;
            Scale.node_request Scale.explicit_args "gpu" 120]).
  - reflexivity.
  - reflexivity.
  - intros [|i] r Hr; [|done]. exists tt. injection Hr as <-. reflexivity.
  - reflexivity.
Defined.

Lemma target_usage_error_witness :
  ∃ final,
    Scale.target unit "https://api.example" Scale.sample_argv
      (Ok Scale.sample_config) (fun s => Ok s) (fun msg _ _ => Ok msg)
      Scale.accepting_api Scale.conflicting_args []
    = (Raise (SystemExit 1), final) ∧
    final
    = ([] ++ [ Scale.Stderr "usage: {cmd} {{name|--region,--pool,--master,--token}}";
               Scale.Stderr "{cmd}: error: either {{name}} or {{--region,--pool,--master,--token}} are required" ])%list ∧
    Scale.posts final = Scale.posts [].
Proof.
  apply (Scale.target_usage_error unit "https://api.example"
           Scale.sample_argv (Ok Scale.sample_config) (fun s => Ok s)
           (fun msg _ _ => Ok msg) Scale.accepting_api
           Scale.conflicting_args [] "/usr/bin/melctl" "s8s" "scale"
           "/usr/bin/melctl").
  - reflexivity.
  - reflexivity.
  - reflexivity.
  - reflexivity.
  - repeat constructor.
  - discriminate.
Defined.

Lemma target_missing_configuration_witness :
  ∃ final,
    Scale.target unit "https://api.example" Scale.sample_argv
      (Ok Scale.sample_config) (fun s => Ok s) (fun msg _ _ => Ok msg)
      Scale.accepting_api Scale.unknown_name_args []
    = (Raise (SystemExit 1), final) ∧
    final
    = ([] ++ [ Scale.Stderr "{cmd}: error: configuration staging not found or invalid";
               Scale.Stderr "You may create the configuration with {melctl} s8s set-config" ])%list ∧
    Scale.posts final = Scale.posts [].
Proof.
  apply (Scale.target_missing_configuration unit "https://api.example"
           Scale.sample_argv (Ok Scale.sample_config) (fun s => Ok s)
           (fun msg _ _ => Ok msg) Scale.accepting_api
           Scale.unknown_name_args [] "staging" "/usr/bin/melctl" "s8s"
           "scale" "/usr/bin/melctl").
  - reflexivity.
  - reflexivity.
  - reflexivity.
  - reflexivity.
  - repeat constructor.
  - reflexivity.
  - reflexivity.
  - intros config cfg [= <-] Hcfg. vm_compute in Hcfg. discriminate.
Defined.

Lemma set_config_upsert_witness :
  ∃ config',
    SetConfig.target "/secrets/s8s_config.json" sample_set_args
      (Stored sample_store)
    = (Ok {[ "file" := "/secrets/s8s_config.json"; "name" := "dev" ]},
       Stored config') ∧
    dict_get config' "dev" = Some (SetConfig.entry sample_set_args) ∧
    (∀ k, k ≠ "dev" → dict_get config' k = dict_get sample_store k) ∧
    config'.*1
    = (sample_store.*1 ++ if decide ("dev" ∈ sample_store.*1)
                          then [] else ["dev"])%list ∧
    (NoDup sample_store.*1 → NoDup config'.*1).
Proof.
  apply (set_config_upsert "/secrets/s8s_config.json" sample_set_args
           (Stored sample_store) sample_store).
  reflexivity.
Defined.

Lemma set_config_then_get_witness :
  GetConfig.target "/secrets/s8s_config.json"
    {| GetConfig.name := Some "dev"; GetConfig.token := false |}
    (SetConfig.target "/secrets/s8s_config.json" sample_set_args Missing).2
  = (Ok [ <["name" := "dev"]>
            (delete "token" (SetConfig.entry sample_set_args)) ], []).
Proof.
  apply (set_config_then_get "/secrets/s8s_config.json" sample_set_args
           Missing [] false).
  reflexivity.
Defined.

Lemma get_config_hides_tokens_witness :
  Forall (fun d : gmap string string => d !! "token" = None)
    ((fun kv : string * gmap string string =>
        <["name" := kv.1]> (delete "token" kv.2)) <$> sample_store).
Proof.
  apply (get_config_hides_tokens "/secrets/s8s_config.json"
           {| GetConfig.name := None; GetConfig.token := false |}
           (Stored sample_store) _ []).
  - reflexivity.
  - vm_compute. reflexivity.
Defined.

Lemma get_config_lists_all_witness :
  ∃ l,
    GetConfig.target "/secrets/s8s_config.json"
      {| GetConfig.name := None; GetConfig.token := false |}
      (Stored sample_store)
    = (Ok l, []) ∧
    Forall2 (fun kv d =>
      d !! "name" = Some kv.1 ∧ d !! "token" = None ∧
      ∀ key, key ≠ "name" → key ≠ "token" → d !! key = kv.2 !! key)
      sample_store l.
Proof.
  apply (get_config_lists_all "/secrets/s8s_config.json" sample_store).
  repeat constructor; eexists; reflexivity.
Defined.

Lemma get_config_unknown_name_witness :
  GetConfig.target "/secrets/s8s_config.json"
    {| GetConfig.name := Some "staging"; GetConfig.token := true |}
    (Stored sample_store)
  = (Raise (SystemExit 1),
     [GetConfig.OnStderr "Configuration staging is not defined"]).
Proof.
  apply (get_config_unknown_name "/secrets/s8s_config.json" "staging" true
           sample_store).
  intros Hin. apply elem_of_cons in Hin as [Hin|Hin]; [discriminate|].
  apply elem_of_cons in Hin as [Hin|Hin]; [discriminate|].
  by apply elem_of_nil in Hin.
Defined.

Lemma get_config_entry_without_token_witness :
  GetConfig.target "/secrets/s8s_config.json"
    {| GetConfig.name := None; GetConfig.token := false |}
    (Stored tokenless_store)
  = (Raise (SystemExit 1),
     [GetConfig.OnStderr "Configuration None is not defined"]).
Proof.
  apply (get_config_entry_without_token "/secrets/s8s_config.json"
           tokenless_store).
  constructor. reflexivity.
Defined.

Lemma set_config_then_scale_witness :
  ∃ config',
    (SetConfig.target "/secrets/s8s_config.json" sample_set_args
       (Stored sample_store)).2 = Stored config' ∧
    Scale.reprocess_args Scale.sample_argv (Ok (list_to_map config'))
      (fun s => Ok s) (fun msg _ _ => Ok msg) Scale.dev_args []
    = (Ok {| Scale.name := Scale.name Scale.dev_args;
             Scale.region := Some (SetConfig.region sample_set_args);
             Scale.pool := Some (SetConfig.pool sample_set_args);
             Scale.master := Some (SetConfig.master sample_set_args);
             Scale.token := Some (SetConfig.token sample_set_args);
             Scale.dry_run := Scale.dry_run Scale.dev_args;
             Scale.specs_cpu := Scale.specs_cpu Scale.dev_args;
             Scale.specs_gpu := Scale.specs_gpu Scale.dev_args;
             Scale.specs_mem := Scale.specs_mem Scale.dev_args;
             Scale.specs_fpga := Scale.specs_fpga Scale.dev_args |}, []).
Proof.
  apply (set_config_then_scale Scale.sample_argv (fun s => Ok s)
           (fun msg _ _ => Ok msg) "/secrets/s8s_config.json"
           sample_set_args (Stored sample_store) sample_store
           Scale.dev_args []).
  - reflexivity.
  - reflexivity.
  - reflexivity.
Defined.

Lemma render_pools_witness :
  ∃ pools',
    Pools.render (JList [JDict sample_pool_items]) = Ok (JList pools') ∧
    Forall2 (fun pool pool' => ∃ items items' nodes names,
      Pools.pool_of items nodes names pool ∧
      pool' = JDict items' ∧
      dict_get items' "nodes_count" = Some (JInt (Z.of_nat (length nodes))) ∧
      dict_get items' "nodes_list" = Some (JList names) ∧
      ∀ k, k ≠ "nodes_count" → k ≠ "nodes_list" →
        dict_get items' k = dict_get items k)
      [JDict sample_pool_items] pools'.
Proof.
  apply (render_pools [JDict sample_pool_items]).
  constructor; [|constructor].
  exists sample_pool_items,
    [ JDict [("name", JStr "n1"); ("cores", JInt 128)];
      JDict [("name", JStr "n2"); ("cores", JInt 64)] ],
    [JStr "n1"; JStr "n2"].
  split; [reflexivity|]. split; [reflexivity|].
  constructor; [reflexivity|]. constructor; [reflexivity|]. constructor.
Defined.

Lemma render_object_witness :
  Pools.render (JDict sample_pool_items) = Raise TypeError.
Proof.
  apply (render_object sample_pool_items). discriminate.
Defined.

Lemma set_config_overwrites_witness :
  (SetConfig.target "/secrets/s8s_config.json" sample_set_args
     (SetConfig.target "/secrets/s8s_config.json"
        {| SetConfig.name := "dev"; SetConfig.region := "old";
           SetConfig.pool := "old"; SetConfig.master := "old";
           SetConfig.token := "old" |} (Stored sample_store)).2).2
  = (SetConfig.target "/secrets/s8s_config.json" sample_set_args
       (Stored sample_store)).2.
Proof.
  apply (set_config_overwrites "/secrets/s8s_config.json" _ sample_set_args
           (Stored sample_store) sample_store).
  - reflexivity.
  - reflexivity.
Defined.

Lemma set_config_then_del_witness :
  DelConfig.target (SetConfig.name sample_set_args)
    (SetConfig.target "/secrets/s8s_config.json" sample_set_args Missing).2
  = (Ok {[ "deleted" := SetConfig.name sample_set_args ]}, Stored []).
Proof.
  apply (set_config_then_del "/secrets/s8s_config.json" sample_set_args
           Missing []).
  - reflexivity.
  - apply not_elem_of_nil.
Defined.

Lemma config_failure_keeps_file_witness :
  (SetConfig.target "/secrets/s8s_config.json" sample_set_args
     (Other (NList [JStr "prod"]))).2 = Other (NList [JStr "prod"]) ∧
  (DelConfig.target "prod" (Other (NList [JStr "prod"]))).2
  = Other (NList [JStr "prod"]).
Proof.
  split.
  - apply (proj1 (config_failure_keeps_file "/secrets/s8s_config.json"
                    "prod" sample_set_args (Other (NList [JStr "prod"]))
                    TypeError)).
    reflexivity.
  - apply (proj2 (config_failure_keeps_file "/secrets/s8s_config.json"
                    "prod" sample_set_args (Other (NList [JStr "prod"]))
                    TypeError)).
    reflexivity.
Defined.

(** A file that decodes to something else than an object. *)
Example del_config_on_non_objects :
  DelConfig.target "prod" (Other (NList []))
  = (Ok {[ "deleted" := "prod" ]}, Other (NList [])) ∧
  DelConfig.target "prod" (Other (NStr "production"))
  = (Raise TypeError, Other (NStr "production")) ∧
  DelConfig.target "prod" (Other (NStr "test"))
  = (Ok {[ "deleted" := "prod" ]}, Other (NStr "test")) ∧
  DelConfig.target "prod" (Other (NInt 3)) = (Raise TypeError, Other (NInt 3)) ∧
  DelConfig.target "prod" (Other NNull) = (Raise TypeError, Other NNull).
Proof. repeat split. Qed.

Example get_config_on_non_objects :
  GetConfig.target "/secrets/s8s_config.json"
    {| GetConfig.name := None; GetConfig.token := false |} (Other (NList []))
  = (Raise (SystemExit 1),
     [GetConfig.OnStdout "Failed to load configuration file /secrets/s8s_config.json: 'list' object has no attribute 'items'"]) ∧
  GetConfig.target "/secrets/s8s_config.json"
    {| GetConfig.name := Some "prod"; GetConfig.token := false |}
    (Other (NInt 3))
  = (Raise (SystemExit 1),
     [GetConfig.OnStdout "Failed to load configuration file /secrets/s8s_config.json: 'int' object is not subscriptable"]).
Proof. repeat split. Qed.
